(** * GCP Secret Manager ConfigProvider: a shallow embedding

    The development follows [src/gcp-secret-manager/layers.ts] together with
    the three small modules it imports: the [GcpSecretManagerConfig] tag, the
    [SecretMap] context reference and the scoped [GcpSecretManager] service.

    The repository is written against the Effect library.  The library
    combinators the code calls ([Effect.forEach], [Effect.option],
    [HashMap.fromIterable], [ConfigProvider.orElse], [Layer.provide], ...)
    are modelled first, each by its documented behaviour; the repository's
    own functions are then transcribed on top of them, keeping their names. *)

From Stdlib Require Import Ascii.
From stdpp Require Import gmap strings list fin_maps.

Open Scope string_scope.
Open Scope list_scope.

(** ** Outcomes of running an effect

    An effect either succeeds, fails with an expected (typed) error, or dies
    with a defect.  [Effect.option] and [catchAll] only see expected errors. *)

Inductive Exit (E A : Type) : Type :=
| Success (a : A)
| Failure (e : E)
| Die (defect : string).

Arguments Success {E A} a.
Arguments Failure {E A} e.
Arguments Die {E A} defect.

(** ** The world the program runs in *)

(** What awaiting [client.accessSecretVersion({ name })] gives: the promise
    rejects, or resolves to a response whose [payload?.data?.toString()] is
    either a string or nullish. *)
Inductive PromiseResult : Type :=
| Rejected
| Resolved (payloadData : option string).

Record World : Type := mkWorld {
  (** the JS heap of [Map<string, string>] objects; a reference is an index *)
  maps : list (gmap string string);
  (** [Context.Reference] caches the default value of [SecretMap] once made *)
  defaultValueCache : option nat;
  (** [process.env] *)
  env : gmap string string;
  (** one entry per [SecretManagerServiceClient] constructed: how many times
      its [close()] has been called *)
  clients : list nat;
  (** the remote secret store, queried by full resource name *)
  remote : string -> PromiseResult;
}.

Definition setMaps (f : list (gmap string string) -> list (gmap string string))
    (w : World) : World :=
  mkWorld (f (maps w)) (defaultValueCache w) (env w) (clients w) (remote w).

Definition setDefaultValueCache (c : option nat) (w : World) : World :=
  mkWorld (maps w) c (env w) (clients w) (remote w).

Definition setClients (f : list nat -> list nat) (w : World) : World :=
  mkWorld (maps w) (defaultValueCache w) (env w) (f (clients w)) (remote w).

(** A scope is the stack of finalizers registered in it, newest first. *)
Record Runtime : Type := mkRuntime {
  scope : list (World -> World);
  world : World;
}.

Definition onWorld (f : World -> World) (rt : Runtime) : Runtime :=
  mkRuntime (scope rt) (f (world rt)).

Definition addFinalizer (fin : World -> World) (rt : Runtime) : Runtime :=
  mkRuntime (fin :: scope rt) (world rt).

(** Closing a scope runs its finalizers, newest first, each exactly once. *)
Definition closeScope (fins : list (World -> World)) (w : World) : World :=
  foldl (fun w fin => fin w) w fins.

(** An effect that needs nothing from the context ([R = never]). *)
Definition Run (E A : Type) : Type := Runtime -> Exit E A * Runtime.

(** ** JS [Map] objects *)

Module JsMap.
(** [new Map()] *)
Definition new (w : World) : nat * World :=
  (length (maps w), setMaps (fun h => h ++ [∅]) w).

(** [map.set(key, value)]: updates the object in place *)
Definition set (map : nat) (key value : string) (w : World) : World :=
  setMaps (alter (insert key value) map) w.

(** the contents of the object behind a reference *)
Definition contents (map : nat) (w : World) : gmap string string :=
  default ∅ (maps w !! map).
End JsMap.

(** ** Configuration providers

    A provider is observed through [Config.string(key)]: the lookup of one
    key, which reads the world (the environment provider reads
    [process.env] when asked, not when built). *)

Inductive ConfigError : Type :=
| And (left right : ConfigError)
| Or (left right : ConfigError)
| InvalidData (path : list string) (message : string)
| MissingData (path : list string) (message : string)
| SourceUnavailable (path : list string) (message : string)
| Unsupported (path : list string) (message : string).

Fixpoint isMissingDataOnly (e : ConfigError) : bool :=
  match e with
  | And l r => isMissingDataOnly l && isMissingDataOnly r
  | Or l r => isMissingDataOnly l && isMissingDataOnly r
  | MissingData _ _ => true
  | _ => false
  end.

Record ConfigProvider : Type := mkConfigProvider {
  load : string -> World -> Exit ConfigError string;
}.

(** *** Keys of a map-backed provider

    [ConfigProvider.fromMap] does not keep the keys of the [Map] as they
    are.  Each key is cut at the path delimiter ["."]; a segment of the form
    [name[digits]] (the regular expression [/(^.+)(\[(\d+)\])$/]) becomes
    the two segments [name] and [[index]]; the segments are joined again
    with ["."].  A lookup then asks for the key under that rewritten name. *)

Fixpoint hasChar (c : ascii) (s : string) : bool :=
  match s with
  | EmptyString => false
  | String a rest => if decide (a = c) then true else hasChar c rest
  end.

(** [s.split(delim)] for a one-character delimiter *)
Fixpoint splitOn (delim : ascii) (s : string) : list string :=
  match s with
  | EmptyString => [EmptyString]
  | String c rest =>
      if decide (c = delim) then EmptyString :: splitOn delim rest
      else String c (hd EmptyString (splitOn delim rest))
             :: tl (splitOn delim rest)
  end.

(** [parts.join(delim)] *)
Fixpoint joinWith (delim : ascii) (parts : list string) : string :=
  match parts with
  | [] => EmptyString
  | part :: rest =>
      match rest with
      | [] => part
      | _ :: _ => part +:+ String delim (joinWith delim rest)
      end
  end.

(** [\d] *)
Definition isDigit (c : ascii) : bool :=
  (48 <=? nat_of_ascii c)%nat && (nat_of_ascii c <=? 57)%nat.

Fixpoint takeWhile {A} (p : A -> bool) (l : list A) : list A :=
  match l with
  | x :: rest => if p x then x :: takeWhile p rest else []
  | [] => []
  end.

Fixpoint dropWhile {A} (p : A -> bool) (l : list A) : list A :=
  match l with
  | x :: rest => if p x then dropWhile p rest else l
  | [] => []
  end.

(** The characters [.] does not match: line feed, carriage return and the
    line and paragraph separators U+2028 and U+2029 (strings are read as
    UTF-8 here, where these two are the bytes 226 128 168 and 226 128 169). *)
Fixpoint hasLineTerminator (cs : list ascii) : bool :=
  match cs with
  | [] => false
  | c :: rest =>
      match nat_of_ascii c, nat_of_ascii <$> take 2 rest with
      | 10, _ | 13, _ | 226, [128; 168] | 226, [128; 169] => true
      | _, _ => hasLineTerminator rest
      end
  end.

Fixpoint dropZeros (digits : list ascii) : list ascii :=
  match digits with
  | c :: rest => if decide (c = "0"%char) then dropZeros rest else digits
  | [] => []
  end.

(** the text of [Number.parseInt(digits)]: the digits without leading
    zeros (for an index below 2^53; JavaScript rounds larger ones) *)
Definition indexText (digits : list ascii) : string :=
  match dropZeros digits with
  | [] => "0"
  | significant => String.string_of_list_ascii significant
  end.

(** [splitIndexFrom(key)]: for [name[digits]], with a name that is not
    empty and has no line terminator, the name and the index *)
Definition splitIndexFrom (key : string) : option (string * string) :=
  match rev (String.list_ascii_of_string key) with
  | c :: before =>
      if decide (c = "]"%char) then
        match dropWhile isDigit before with
        | o :: name =>
            if decide (o = "["%char) then
              match takeWhile isDigit before, name with
              | _ :: _, _ :: _ =>
                  if hasLineTerminator (rev name) then None
                  else Some (String.string_of_list_ascii (rev name),
                             indexText (rev (takeWhile isDigit before)))
              | _, _ => None
              end
            else None
        | [] => None
        end
      else None
  | [] => None
  end.

(** the segments one segment of a key becomes *)
Definition keyWithIndex (segment : string) : list string :=
  match splitIndexFrom segment with
  | Some (name, index) => [name; "[" +:+ index +:+ "]"]
  | None => [segment]
  end.

(** the name a key of the [Map] is kept under *)
Definition indexedPath (pathString : string) : string :=
  joinWith "."%char (flat_map keyWithIndex (splitOn "."%char pathString)).

(** [splitIndexInKeys(map, ...)]: the copy of the [Map] the provider reads,
    with every key rewritten.  When two keys of the [Map] are rewritten to
    the same name, the library keeps the one the [Map] yields last; the
    order in which a [Map] yields its keys is not recorded in this heap.
    The general statements about lookups below are therefore made for
    names without a closing bracket: no key but the name itself is
    rewritten to such a name, whatever the order and whatever the index. *)
Definition splitIndexInKeys (map : gmap string string) : gmap string string :=
  map_fold (fun key value newMap => <[indexedPath key := value]> newMap) ∅ map.

(** A name is looked up as it is written: the map keeps the key [key]
    under its own name if it has it, and rewrites no other of its keys to
    that name. *)
Definition keptAsIs (entries : gmap string string) (key : string) : Prop :=
  (is_Some (entries !! key) -> indexedPath key = key)
  /\ forall other, other <> key -> is_Some (entries !! other) ->
       indexedPath other <> key.

(** The names every JavaScript object inherits from [Object.prototype].
    [name in process.env] holds for them although no variable is set, and
    what [process.env[name]] then gives is not a string. *)
Definition objectPrototypeName (name : string) : bool :=
  bool_decide (name ∈ ["constructor"; "__proto__"; "hasOwnProperty";
                       "isPrototypeOf"; "propertyIsEnumerable";
                       "toLocaleString"; "toString"; "valueOf";
                       "__defineGetter__"; "__defineSetter__";
                       "__lookupGetter__"; "__lookupSetter__"]).

Module ConfigProvider.
(** [ConfigProvider.fromMap(map)]: the entries are copied, under their
    rewritten names, when the provider is built; a lookup finds the name
    it asks for in that copy or reports it missing. *)
Definition fromMap (entries : gmap string string) : ConfigProvider :=
  mkConfigProvider (fun key _ =>
    match splitIndexInKeys entries !! key with
    | Some value => Success value
    | None => Failure (MissingData [key]
                ("Expected " +:+ key +:+ " to exist in the provided map"))
    end).

(** [ConfigProvider.fromEnv()]: the variable named like the key.  ([env]
    holds the variables that are set; the inherited names above are left
    out of it, and the statements about the environment exclude them.) *)
Definition fromEnv (_ : unit) : ConfigProvider :=
  mkConfigProvider (fun key w =>
    match env w !! key with
    | Some value => Success value
    | None => Failure (MissingData [key]
                ("Expected " +:+ key +:+ " to exist in the process context"))
    end).

(** [ConfigProvider.orElse(that)(self)]: [self] is asked first; on any
    expected error [that()] is built and asked, and if it fails too the
    two errors are joined with [Or]. *)
Definition orElse (that : unit -> ConfigProvider) (self : ConfigProvider)
    : ConfigProvider :=
  mkConfigProvider (fun key w =>
    match load self key w with
    | Failure error1 =>
        match load (that tt) key w with
        | Failure error2 => Failure (Or error1 error2)
        | other => other
        end
    | other => other
    end).
End ConfigProvider.

(** ** Services and the context *)

Inductive GetSecretError : Type :=
| UnknownException
| NoSuchElementException.

(** [config.ts]: the shape behind the [GcpSecretManagerConfig] tag *)
Record GcpSecretManagerConfigShape : Type := mkConfigShape {
  configProjectId : string;
}.

(** The value the [GcpSecretManager] service provides: [{ getSecret }]. *)
Record GcpSecretManagerShape : Type := mkService {
  getSecret : string -> Run GetSecretError string;
}.

Inductive Tag : Type -> Type :=
| GcpSecretManagerConfig : Tag GcpSecretManagerConfigShape
| GcpSecretManager : Tag GcpSecretManagerShape
| SecretMapTag : Tag nat.

Record Context : Type := mkContext {
  ctxGcpSecretManagerConfig : option GcpSecretManagerConfigShape;
  ctxGcpSecretManager : option GcpSecretManagerShape;
  ctxSecretMap : option nat;
  (** the current config provider, when one has been set *)
  ctxConfigProvider : option ConfigProvider;
}.

Module Context.
Definition empty : Context := mkContext None None None None.

Definition make {T} (tag : Tag T) : T -> Context :=
  match tag in Tag T return T -> Context with
  | GcpSecretManagerConfig => fun v => mkContext (Some v) None None None
  | GcpSecretManager => fun v => mkContext None (Some v) None None
  | SecretMapTag => fun v => mkContext None None (Some v) None
  end.

Definition get {T} (tag : Tag T) (ctx : Context) : option T :=
  match tag in Tag T return option T with
  | GcpSecretManagerConfig => ctxGcpSecretManagerConfig ctx
  | GcpSecretManager => ctxGcpSecretManager ctx
  | SecretMapTag => ctxSecretMap ctx
  end.

Definition orOf {A} (x y : option A) : option A :=
  match x with Some _ => x | None => y end.

(** [Context.merge(self, that)]: entries of [that] win *)
Definition merge (self that : Context) : Context :=
  mkContext
    (orOf (ctxGcpSecretManagerConfig that) (ctxGcpSecretManagerConfig self))
    (orOf (ctxGcpSecretManager that) (ctxGcpSecretManager self))
    (orOf (ctxSecretMap that) (ctxSecretMap self))
    (orOf (ctxConfigProvider that) (ctxConfigProvider self)).
End Context.

(** ** Effects *)

Definition Eff (E A : Type) : Type := Context -> Run E A.

Module Effect.
Definition succeed {E A} (a : A) : Eff E A := fun _ rt => (Success a, rt).
Definition fail {E A} (e : E) : Eff E A := fun _ rt => (Failure e, rt).
Definition die {E A} (d : string) : Eff E A := fun _ rt => (Die d, rt).

Definition flatMap {E A B} (self : Eff E A) (f : A -> Eff E B) : Eff E B :=
  fun ctx rt =>
    match self ctx rt with
    | (Success a, rt') => f a ctx rt'
    | (Failure e, rt') => (Failure e, rt')
    | (Die d, rt') => (Die d, rt')
    end.

Definition map {E A B} (f : A -> B) (self : Eff E A) : Eff E B :=
  flatMap self (fun a => succeed (f a)).

(** [Effect.sync(thunk)] for a thunk acting on the world *)
Definition sync {E A} (thunk : World -> A * World) : Eff E A :=
  fun _ rt =>
    let '(a, w) := thunk (world rt) in (Success a, mkRuntime (scope rt) w).

(** [Effect.map(f)] where the JS function [f] also writes to the heap *)
Definition mapSync {E A B} (f : A -> World -> B * World) (self : Eff E A)
    : Eff E B :=
  flatMap self (fun a => sync (f a)).

(** [yield* tag] for a service tag: the service must be in the context. *)
Definition service {E T} (tag : Tag T) : Eff E T :=
  fun ctx rt =>
    match Context.get tag ctx with
    | Some v => (Success v, rt)
    | None => (Die "Service not found", rt)
    end.

(** [yield* ref] for a [Context.Reference]: the context's value if there
    is one; otherwise the default, made on first use and cached. *)
Definition reference {E} (tag : Tag nat) (defaultValue : World -> nat * World)
    : Eff E nat :=
  fun ctx rt =>
    match Context.get tag ctx with
    | Some v => (Success v, rt)
    | None =>
        match defaultValueCache (world rt) with
        | Some v => (Success v, rt)
        | None =>
            let '(v, w) := defaultValue (world rt) in
            (Success v, mkRuntime (scope rt) (setDefaultValueCache (Some v) w))
        end
    end.

(** [Effect.option]: an expected failure becomes [None]; defects pass. *)
Definition option {E E' A} (self : Eff E A) : Eff E' (option A) :=
  fun ctx rt =>
    match self ctx rt with
    | (Success a, rt') => (Success (Some a), rt')
    | (Failure _, rt') => (Success None, rt')
    | (Die d, rt') => (Die d, rt')
    end.

(** [Effect.tryPromise(thunk)]: a rejection is the expected error
    [UnknownException]. *)
Definition tryPromise (thunk : World -> PromiseResult)
    : Eff GetSecretError (Datatypes.option string) :=
  fun _ rt =>
    match thunk (world rt) with
    | Rejected => (Failure UnknownException, rt)
    | Resolved payloadData => (Success payloadData, rt)
    end.

(** An [Option] used as an effect: [None] fails with
    [NoSuchElementException]. *)
Definition fromOption {A} (o : Datatypes.option A) : Eff GetSecretError A :=
  match o with
  | Some a => succeed a
  | None => fail NoSuchElementException
  end.

(** [Effect.acquireRelease(acquire, release)]: once [acquire] has
    succeeded, [release] of the resource is pushed on the current scope. *)
Definition acquireRelease {E A} (acquire : Eff E A)
    (release : A -> World -> World) : Eff E A :=
  fun ctx rt =>
    match acquire ctx rt with
    | (Success a, rt') => (Success a, addFinalizer (release a) rt')
    | other => other
    end.

(** [Effect.provideContext]-style local extension of the context *)
Definition provideSomeContext {E A} (extra : Context) (self : Eff E A) : Eff E A :=
  fun ctx => self (Context.merge ctx extra).

(** *** [Effect.forEach(items, f, { concurrency: "unbounded" })]

    One fiber is forked per element.  Fibers complete in an order the
    program does not control; it is given here as [completions]: each
    number picks, among the fibers still pending, the one that completes
    next (taken modulo how many are pending; once the list is exhausted
    the rest complete in index order).  A completing fiber stores its
    result at its own index, [array[i] = b]; a failing fiber interrupts
    the others and fails the whole [forEach].  When every fiber has
    completed the array is the result. *)

Fixpoint settleInOrder {E A B} (f : A -> nat -> Eff E B)
    (pending : list (nat * A)) (array : gmap nat B) : Eff E (gmap nat B) :=
  fun ctx rt =>
    match pending with
    | [] => (Success array, rt)
    | (i, a) :: rest =>
        match f a i ctx rt with
        | (Success b, rt') => settleInOrder f rest (<[i:=b]> array) ctx rt'
        | (Failure e, rt') => (Failure e, rt')
        | (Die d, rt') => (Die d, rt')
        end
    end.

Fixpoint settle {E A B} (f : A -> nat -> Eff E B) (completions : list nat)
    (pending : list (nat * A)) (array : gmap nat B) : Eff E (gmap nat B) :=
  fun ctx rt =>
    match completions with
    | [] => settleInOrder f pending array ctx rt
    | c :: later =>
        let j := c mod length pending in
        match pending !! j with
        | None => (Success array, rt)
        | Some (i, a) =>
            match f a i ctx rt with
            | (Success b, rt') =>
                settle f later (delete j pending) (<[i:=b]> array) ctx rt'
            | (Failure e, rt') => (Failure e, rt')
            | (Die d, rt') => (Die d, rt')
            end
        end
    end.

Definition arrayValues {B} (n : nat) (array : gmap nat B) : list B :=
  omap (fun i => array !! i) (seq 0 n).

Definition forEach {E A B} (completions : list nat) (items : list A)
    (f : A -> nat -> Eff E B) : Eff E (list B) :=
  map (arrayValues (length items))
      (settle f completions (imap (fun i a => (i, a)) items) ∅).
End Effect.

(** [let* x := e in k] reads as [const x = yield* e; k] of [Effect.gen]. *)
Notation "'let*' x ':=' e 'in' k" := (Effect.flatMap e (fun x => k))
  (at level 10, x name, e at level 100, k at level 200).

(** [x |> f] is one step of [pipe(x, f, ...)]. *)
Notation "x |> f" := (f x) (at level 45, left associativity, only parsing).

(** ** Immutable hash maps (Effect's [HashMap] with string keys) *)

Module HashMap.
(** entries are set one after the other: a later entry replaces an
    earlier one with the same key *)
Definition fromIterable {V} (entries : list (string * V)) : gmap string V :=
  foldl (fun m entry => <[entry.1 := entry.2]> m) ∅ entries.

(** keeps the [Some] values *)
Definition compact {V} (self : gmap string (option V)) : gmap string V :=
  omap id self.

Definition reduce {V Z} (zero : Z) (f : Z -> V -> string -> Z)
    (self : gmap string V) : Z :=
  map_fold (fun key value z => f z value key) zero self.
End HashMap.

(** ** Layers

    A layer is built inside a scope and yields the context it provides. *)

Definition Layer (E : Type) : Type := Eff E Context.

Module Layer.
Definition succeed {E T} (tag : Tag T) (value : T) : Layer E :=
  Effect.succeed (Context.make tag value).

(** [Layer.scoped(tag, effect)]: finalizers of [effect] go to the scope
    the layer is built in. *)
Definition scoped {E T} (tag : Tag T) (effect : Eff E T) : Layer E :=
  Effect.map (Context.make tag) effect.

Definition setConfigProvider {E} (provider : ConfigProvider) : Layer E :=
  Effect.succeed (mkContext None None None (Some provider)).

Definition unwrapScoped {E} (self : Eff E (Layer E)) : Layer E :=
  let* layer := self in layer.

(** [Layer.provide(that)(self)]: [that] is built first and its output is
    added to what [self] sees; the result provides what [self] provides. *)
Definition provide {E} (that self : Layer E) : Layer E :=
  let* provided := that in Effect.provideSomeContext provided self.

(** [Effect.provide(layer)(use)]: the layer is built in a fresh scope,
    [use] runs with what it provides, then the scope is closed, whatever
    the exit. *)
Definition provideTo {E A} (layer : Layer E) (use : Eff E A) : Eff E A :=
  fun ctx rt =>
    match layer ctx (mkRuntime [] (world rt)) with
    | (Success provided, built) =>
        let '(exit, rt') :=
          use (Context.merge ctx provided) (mkRuntime (scope rt) (world built)) in
        (exit, mkRuntime (scope rt') (closeScope (scope built) (world rt')))
    | (Failure e, built) =>
        (Failure e, mkRuntime (scope rt) (closeScope (scope built) (world built)))
    | (Die d, built) =>
        (Die d, mkRuntime (scope rt) (closeScope (scope built) (world built)))
    end.
End Layer.

(** * The repository *)

(** ** [secret-map.ts] *)

Record Reference : Type := mkReference {
  referenceTag : Tag nat;
  defaultValue : World -> nat * World;
}.

(** [defaultValue: () => new Map<string, string>()] *)
Definition SecretMap : Reference := mkReference SecretMapTag JsMap.new.

(** [yield* SecretMap] *)
Definition yieldReference {E} (ref : Reference) : Eff E nat :=
  Effect.reference (referenceTag ref) (defaultValue ref).

(** ** [GcpSecretManager.ts] *)

Module SecretManagerServiceClient.
(** [new SecretManagerServiceClient()] *)
Definition new (w : World) : nat * World :=
  (length (clients w), setClients (fun cs => cs ++ [0]) w).

(** [client.close()] *)
Definition close (client : nat) (w : World) : World :=
  setClients (alter S client) w.

(** [client.accessSecretVersion({ name })] *)
Definition accessSecretVersion (client : nat) (name : string) (w : World)
    : PromiseResult :=
  remote w name.
End SecretManagerServiceClient.

Definition secretVersionName (projectId name : string) : string :=
  "projects/" +:+ projectId +:+ "/secrets/" +:+ name +:+ "/versions/latest".

(** The function [getSecret] defined inside the service constructor; it
    closes over [projectId] and [client], which are parameters here. *)
Definition getSecretWith (projectId : string) (client : nat) (name : string)
    : Eff GetSecretError string :=
  Effect.tryPromise
    (SecretManagerServiceClient.accessSecretVersion client
       (secretVersionName projectId name))
  |> (fun self => Effect.flatMap self
        (fun payloadData => Effect.fromOption payloadData)).

(** the object [{ getSecret }] the constructor returns *)
Definition gcpSecretManagerOf (projectId : string) (client : nat)
    : GcpSecretManagerShape :=
  mkService (fun name => getSecretWith projectId client name Context.empty).

(** the [scoped:] constructor of the service *)
Definition GcpSecretManager_scoped {E} : Eff E GcpSecretManagerShape :=
  let* config := Effect.service GcpSecretManagerConfig in
  let projectId := configProjectId config in
  let* client :=
    Effect.acquireRelease
      (Effect.sync SecretManagerServiceClient.new)
      (fun client => SecretManagerServiceClient.close client) in
  Effect.succeed (gcpSecretManagerOf projectId client).

(** [GcpSecretManager.Default] *)
Definition GcpSecretManager_Default {E} : Layer E :=
  Layer.scoped GcpSecretManager GcpSecretManager_scoped.

(** ** [layers.ts] *)

(** [string | { nameInSecretManager: string; nameInConfig: string }] *)
Inductive SecretInput : Type :=
| BareName (name : string)
| Renamed (nameInSecretManager nameInConfig : string).

(** The static type of [secrets] is [NonEmptyReadonlyArray<SecretInput>];
    at run time it is an array like any other. *)
Record ConfigProviderInput : Type := mkInput {
  projectId : string;
  secrets : list SecretInput;
}.

Definition isNonEmptyReadonlyArray {A} (xs : list A) : bool :=
  match xs with [] => false | _ :: _ => true end.

Definition nameInConfigOf (secretInput : SecretInput) : string :=
  match secretInput with
  | BareName name => name
  | Renamed _ nameInConfig => nameInConfig
  end.

Definition nameInSecretManagerOf (secretInput : SecretInput) : string :=
  match secretInput with
  | BareName name => name
  | Renamed nameInSecretManager _ => nameInSecretManager
  end.

(** the effect run for one element of [input.secrets] *)
Definition fetchOne {E} (gcpSecretManager : GcpSecretManagerShape)
    (secretInput : SecretInput) : Eff E (string * option string) :=
  let nameInConfig := nameInConfigOf secretInput in
  let nameInSecretManager := nameInSecretManagerOf secretInput in
  let* secretResult :=
    Effect.option (fun _ => getSecret gcpSecretManager nameInSecretManager) in
  Effect.succeed (nameInConfig, secretResult).

(** the callback of [HashMap.reduce]: [map.set(key, value); return map] *)
Definition setInto (acc : nat * World) (value key : string) : nat * World :=
  let '(map, w) := acc in (map, JsMap.set map key value w).

(** The value bound to [secretMapForConfigProvider].  The arguments of
    [pipe] are evaluated before the pipeline runs, so [yield* SecretMap]
    comes first. *)
Definition secretMapForConfigProvider {E} (completions : list nat)
    (input : ConfigProviderInput) (gcpSecretManager : GcpSecretManagerShape)
    : Eff E nat :=
  let* seed := yieldReference SecretMap in
  Effect.forEach completions (secrets input)
    (fun secretInput _ => fetchOne gcpSecretManager secretInput)
  |> Effect.map HashMap.fromIterable
  |> Effect.map HashMap.compact
  |> Effect.mapSync
       (fun fetched w => HashMap.reduce (seed, w) setInto fetched).

Definition fromSecretManager {E} (completions : list nat)
    (input : ConfigProviderInput) : Eff E ConfigProvider :=
  let* gcpSecretManager := Effect.service GcpSecretManager in
  let* secretMapForConfigProvider :=
    secretMapForConfigProvider completions input gcpSecretManager in
  Effect.sync (fun w =>
    (ConfigProvider.fromMap (JsMap.contents secretMapForConfigProvider w), w)).

Definition layerGcp {E} (completions : list nat) (input : ConfigProviderInput)
    : Layer E :=
  fromSecretManager completions input
  |> Effect.map Layer.setConfigProvider
  |> Layer.unwrapScoped
  |> Layer.provide GcpSecretManager_Default
  |> Layer.provide
       (Layer.succeed GcpSecretManagerConfig (mkConfigShape (projectId input))).

Definition layerGcpWithEnvFallback {E} (completions : list nat)
    (input : ConfigProviderInput) : Layer E :=
  fromSecretManager completions input
  |> Effect.map (ConfigProvider.orElse (fun _ => ConfigProvider.fromEnv tt))
  |> Effect.map Layer.setConfigProvider
  |> Layer.unwrapScoped
  |> Layer.provide GcpSecretManager_Default
  |> Layer.provide
       (Layer.succeed GcpSecretManagerConfig (mkConfigShape (projectId input))).

Section JsonFallback.
(** The fallback document is [unknown] to this code and only handed to
    [ConfigProvider.fromJson], which stays a parameter. *)
Variable Json : Type.
Variable fromJson : Json -> ConfigProvider.

Definition layerGcpWithJsonFallback {E} (completions : list nat)
    (json : Json) (input : ConfigProviderInput) : Layer E :=
  fromSecretManager completions (mkInput (projectId input) (secrets input))
  |> Effect.map (ConfigProvider.orElse (fun _ => fromJson json))
  |> Effect.map Layer.setConfigProvider
  |> Layer.unwrapScoped
  |> Layer.provide GcpSecretManager_Default
  |> Layer.provide
       (Layer.succeed GcpSecretManagerConfig (mkConfigShape (projectId input))).
End JsonFallback.

(** * What a run computes

    Functions used to state the results: what a fetch yields, which map the
    fetches amount to, which [Map] object is the seed. *)

(** what [Effect.option(getSecret(name))] yields against the store of [w] *)
Definition secretResultOf (projectId : string) (w : World) (name : string)
    : option string :=
  match remote w (secretVersionName projectId name) with
  | Resolved (Some value) => Some value
  | _ => None
  end.

(** the pair one element of [input.secrets] contributes *)
Definition outcomeOf (projectId : string) (w : World) (secretInput : SecretInput)
    : string * option string :=
  (nameInConfigOf secretInput,
   secretResultOf projectId w (nameInSecretManagerOf secretInput)).

(** the hash map after [fromIterable] and [compact] *)
Definition fetchedFrom (projectId : string) (w : World)
    (inputs : list SecretInput) : gmap string string :=
  HashMap.compact (HashMap.fromIterable (outcomeOf projectId w <$> inputs)).

(** the reference [yield* SecretMap] returns *)
Definition seedOf (ctx : Context) (w : World) : nat :=
  match ctxSecretMap ctx with
  | Some map => map
  | None =>
      match defaultValueCache w with
      | Some map => map
      | None => length (maps w)
      end
  end.

(** the world after [yield* SecretMap] *)
Definition withSeed (ctx : Context) (w : World) : World :=
  match ctxSecretMap ctx with
  | Some _ => w
  | None =>
      match defaultValueCache w with
      | Some _ => w
      | None =>
          setDefaultValueCache (Some (length (maps w)))
            (setMaps (fun h => h ++ [∅]) w)
      end
  end.

(** the seed reference denotes a [Map] object of the heap *)
Definition liveSeed (ctx : Context) (w : World) : Prop :=
  seedOf ctx w < length (maps (withSeed ctx w)).

(** the contents of the seed map before anything is merged into it *)
Definition seedContents (ctx : Context) (w : World) : gmap string string :=
  JsMap.contents (seedOf ctx w) (withSeed ctx w).

(** the world after the fetched entries have been set into the seed map *)
Definition mergedWorld (projectId : string) (inputs : list SecretInput)
    (ctx : Context) (w : World) : World :=
  setMaps (alter (fun seed => fetchedFrom projectId w inputs ∪ seed) (seedOf ctx w))
    (withSeed ctx w).

(** the fibers in the order they complete under [completions]; it is the
    order in which [Effect.settle] runs them *)
Fixpoint completionOrder {A} (completions : list nat) (pending : list A)
    : list A :=
  match completions with
  | [] => pending
  | c :: later =>
      let j := c mod length pending in
      match pending !! j with
      | None => []
      | Some fiber => fiber :: completionOrder later (delete j pending)
      end
  end.

(** the common tail of the three layer pipelines *)
Definition scopedLayer {E} (projectId : string) (provider : Eff E ConfigProvider)
    : Layer E :=
  provider
  |> Effect.map Layer.setConfigProvider
  |> Layer.unwrapScoped
  |> Layer.provide GcpSecretManager_Default
  |> Layer.provide
       (Layer.succeed GcpSecretManagerConfig (mkConfigShape projectId)).

(** the context the aggregation runs in once the layer has built the
    configuration and the service for client [client] *)
Definition serviceContext (projectId : string) (client : nat) (ctx : Context)
    : Context :=
  Context.merge
    (Context.merge ctx (Context.make GcpSecretManagerConfig (mkConfigShape projectId)))
    (Context.make GcpSecretManager (gcpSecretManagerOf projectId client)).

(** the world once a layer is built: one more client, and the fetched
    entries set into the seed map *)
Definition builtWorld (projectId : string) (inputs : list SecretInput)
    (ctx : Context) (w : World) : World :=
  mergedWorld projectId inputs ctx (SecretManagerServiceClient.new w).2.

(** the runtime once a layer is built: the client's [close] is registered *)
Definition builtRuntime (projectId : string) (inputs : list SecretInput)
    (ctx : Context) (rt : Runtime) : Runtime :=
  mkRuntime
    (SecretManagerServiceClient.close (length (clients (world rt))) :: scope rt)
    (builtWorld projectId inputs ctx (world rt)).

(** the map the provider is made from *)
Definition secretMapOf (projectId : string) (inputs : list SecretInput)
    (ctx : Context) (w : World) : gmap string string :=
  JsMap.contents (seedOf ctx w) (builtWorld projectId inputs ctx w).

(** the context a layer provides: the config provider and nothing else *)
Definition providing (provider : ConfigProvider) : Context :=
  mkContext None None None (Some provider).

(** what the pending fibers will store, when each fiber computes [g] *)
Definition fiberResults {A B} (g : A -> B) (pending : list (nat * A))
    : list (nat * B) :=
  prod_map id g <$> pending.

(** ** Statements about the order of completion *)

(** "The last fetch to complete wins": among the elements of
    [input.secrets] that map to [key], take the one whose fiber completes
    last under [completions]; if its fetch yields [value], then [value] is
    what the map holds under [key] after the aggregation. *)
Definition lastToCompleteWins (completions : list nat)
    (input : ConfigProviderInput) (projectId : string) (client : nat)
    (ctx : Context) (rt : Runtime) : Prop :=
  forall key i secretInput value,
    last (filter (fun fiber => nameInConfigOf fiber.2 = key)
            (completionOrder completions
               (imap (fun i a => (i, a)) (secrets input))))
      = Some (i, secretInput) ->
    secretResultOf projectId (world rt) (nameInSecretManagerOf secretInput)
      = Some value ->
    JsMap.contents (seedOf ctx (world rt))
      (world (@secretMapForConfigProvider Empty_set completions input
                (gcpSecretManagerOf projectId client) ctx rt).2) !! key
      = Some value.

(** "An empty list is rejected with a configuration error." *)
Definition emptyListRejected (completions : list nat) (projectId : string)
    (ctx : Context) (rt : Runtime) : Prop :=
  exists e : ConfigError,
    (layerGcp completions (mkInput projectId []) ctx rt).1 = Failure e.

(** "A key the secret-derived map holds is answered with the map's value
    through the environment-fallback layer, not with the environment's." *)
Definition secretShadowsEnvFallback (completions : list nat)
    (input : ConfigProviderInput) (ctx : Context) (rt : Runtime)
    (key : string) (w : World) : Prop :=
  forall A,
    JsMap.contents (seedOf ctx (world rt))
      (world (@layerGcpWithEnvFallback Empty_set completions input ctx rt).2)
      !! key = Some A ->
    exists provider,
      (@layerGcpWithEnvFallback Empty_set completions input ctx rt).1
      = Success (providing provider)
      /\ load provider key w = Success A.

(** "A key the secret-derived map does not hold is answered by the
    environment, and reported missing when the environment lacks it too." *)
Definition absentSecretLeftToEnv (completions : list nat)
    (input : ConfigProviderInput) (ctx : Context) (rt : Runtime)
    (key : string) (w : World) : Prop :=
  JsMap.contents (seedOf ctx (world rt))
    (world (@layerGcpWithEnvFallback Empty_set completions input ctx rt).2)
    !! key = None ->
  exists provider,
    (@layerGcpWithEnvFallback Empty_set completions input ctx rt).1
    = Success (providing provider)
    /\ match env w !! key with
       | Some value => load provider key w = Success value
       | None =>
           exists e, load provider key w = Failure e
                     /\ isMissingDataOnly e = true
       end.

(** "The secrets-only provider answers a key of the aggregated map with
    exactly the map's value." *)
Definition secretsOnlyAnswersMap (completions : list nat)
    (input : ConfigProviderInput) (ctx : Context) (rt : Runtime)
    (key : string) (w : World) : Prop :=
  forall value,
    JsMap.contents (seedOf ctx (world rt))
      (world (@layerGcp Empty_set completions input ctx rt).2) !! key
      = Some value ->
    exists provider,
      (@layerGcp Empty_set completions input ctx rt).1
      = Success (providing provider)
      /\ load provider key w = Success value.

(** "For every input, the value fetched under its [nameInSecretManager] is
    stored in the map under its [nameInConfig]." *)
Definition everyFetchedValueStored (completions : list nat)
    (input : ConfigProviderInput) (projectId : string) (client : nat)
    (ctx : Context) (rt : Runtime) : Prop :=
  forall s value,
    s ∈ secrets input ->
    remote (world rt) (secretVersionName projectId (nameInSecretManagerOf s))
      = Resolved (Some value) ->
    JsMap.contents (seedOf ctx (world rt))
      (world (@secretMapForConfigProvider Empty_set completions input
                (gcpSecretManagerOf projectId client) ctx rt).2)
      !! nameInConfigOf s = Some value.

(** ** Example data *)

Definition exampleStore (name : string) : PromiseResult :=
  if decide (name = "projects/demo/secrets/api-key/versions/latest")
  then Resolved (Some "xyz")
  else if decide (name = "projects/demo/secrets/first/versions/latest")
  then Resolved (Some "A")
  else if decide (name = "projects/demo/secrets/second/versions/latest")
  then Resolved (Some "B")
  else if decide (name = "projects/demo/secrets/PRESENT/versions/latest")
  then Resolved (Some "ok")
  else if decide (name = "projects/demo/secrets/no-payload/versions/latest")
  then Resolved None
  else Rejected.

(** one [Map] object, [{ SEED: "s", API_KEY: "old" }], at reference 0 *)
Definition exampleWorld : World :=
  mkWorld [ {[ "SEED" := "s"; "API_KEY" := "old" ]} ] None
    {[ "MISSING" := "from-env"; "API_KEY" := "env-key" ]} [] exampleStore.

Definition exampleRuntime : Runtime := mkRuntime [] exampleWorld.

(** the caller provides the [Map] at reference 0 as [SecretMap] *)
Definition exampleContext : Context := Context.make SecretMapTag 0.

Definition exampleInput : ConfigProviderInput :=
  mkInput "demo"
    [BareName "MISSING"; BareName "PRESENT"; Renamed "api-key" "API_KEY"].

(** a process in which no [Map] exists yet and no seed is provided *)
Definition freshWorld : World :=
  mkWorld [] None {[ "MISSING" := "from-env" ]} [] exampleStore.

Definition collidingInput : ConfigProviderInput :=
  mkInput "demo" [Renamed "first" "KEY"; Renamed "second" "KEY"].

(** a secret renamed to a configuration key that ends in an index *)
Definition indexedInput : ConfigProviderInput :=
  mkInput "demo" [Renamed "api-key" "ARR[0]"].

(** an empty seed [Map] at reference 0 and an environment that has a
    variable of that very name *)
Definition indexedWorld : World :=
  mkWorld [∅] None {[ "ARR[0]" := "env-val" ]} [] exampleStore.

(** two inputs for one key, the second of which the store does not have *)
Definition shadowedInput : ConfigProviderInput :=
  mkInput "demo" [Renamed "first" "KEY"; Renamed "no-such" "KEY"].

(** ** Further example data *)

(** the world with another remote store behind the clients *)
Definition setRemote (store : string -> PromiseResult) (w : World) : World :=
  mkWorld (maps w) (defaultValueCache w) (env w) (clients w) store.

(** a stand-in for the service, as a test would provide it: it knows one
    secret and fails for every other name *)
Definition stubService : GcpSecretManagerShape :=
  mkService (fun name rt =>
    (if decide (name = "PRESENT") then Success "ok"
     else Failure UnknownException, rt)).

(** a service whose [getSecret] throws for the name BROKEN *)
Definition throwingService : GcpSecretManagerShape :=
  mkService (fun name rt =>
    (if decide (name = "BROKEN") then Die "TypeError"
     else Success "value", rt)).

(** * Properties of the library model *)

Section ForEach.
Context {E A B : Type}.
Variable f : A -> nat -> Eff E B.
Variable g : A -> B.
Variable ctx : Context.
Variable rt : Runtime.
(** every fiber succeeds and leaves the runtime as it found it *)
Hypothesis f_reads : forall a i, f a i ctx rt = (Success (g a), rt).

Lemma fiberResults_fst pending : (fiberResults g pending).*1 = pending.*1.
Proof.
  unfold fiberResults. rewrite <- list_fmap_compose.
  apply list_fmap_ext. by intros _ [i a] _.
Qed.

Lemma store_result (pending : list (nat * A)) (array : gmap nat B) i a :
  i ∉ pending.*1 ->
  list_to_map (fiberResults g pending) ∪ <[i:=g a]> array
  = <[i:=g a]> (list_to_map (fiberResults g pending)) ∪ array.
Proof.
  intros Hi. rewrite <- insert_union_l. symmetry. apply insert_union_r.
  apply not_elem_of_list_to_map_1. by rewrite fiberResults_fst.
Qed.

Lemma settleInOrder_reads pending array :
  NoDup pending.*1 ->
  Effect.settleInOrder f pending array ctx rt
  = (Success (list_to_map (fiberResults g pending) ∪ array), rt).
Proof.
  revert array. induction pending as [|[i a] rest IH]; intros array Hnd.
  - simpl. by rewrite (left_id_L ∅ (∪)).
  - simpl in *. apply NoDup_cons in Hnd as [Hi Hnd].
    rewrite f_reads, (IH _ Hnd). do 2 f_equal. by apply store_result.
Qed.

Lemma settle_reads completions pending array :
  NoDup pending.*1 ->
  Effect.settle f completions pending array ctx rt
  = (Success (list_to_map (fiberResults g pending) ∪ array), rt).
Proof.
  revert pending array.
  induction completions as [|c later IH]; intros pending array Hnd.
  - by apply settleInOrder_reads.
  - simpl. destruct (pending !! (c mod length pending)) as [[i a]|] eqn:Hj.
    + pose proof (delete_Permutation _ _ _ Hj) as Hperm.
      assert (NoDup ((i, a) :: delete (c mod length pending) pending).*1)
        as Hnd' by (by rewrite <- Hperm).
      simpl in Hnd'. apply NoDup_cons in Hnd' as [Hi Hnd'].
      rewrite f_reads, (IH _ _ Hnd'). do 2 f_equal.
      rewrite store_result by done.
      f_equal. symmetry.
      rewrite (list_to_map_proper (fiberResults g pending)
                 (fiberResults g ((i, a) :: delete (c mod length pending) pending))).
      * done.
      * by rewrite fiberResults_fst.
      * unfold fiberResults. by rewrite <- Hperm.
    + destruct pending as [|p rest]; [simpl; by rewrite (left_id_L ∅ (∪))|].
      apply lookup_ge_None in Hj. simpl in Hj.
      pose proof (Nat.mod_upper_bound c (S (length rest))). lia.
Qed.

Lemma arrayValues_of_list (array : gmap nat B) (l : list B) :
  (forall i, i < length l -> array !! i = l !! i) ->
  Effect.arrayValues (length l) array = l.
Proof.
  unfold Effect.arrayValues.
  induction l as [|x l IH] using rev_ind; intros Hl; [done|].
  rewrite length_app, seq_app, omap_app. simpl. f_equal.
  - apply IH. intros i Hi. rewrite Hl by (rewrite length_app; lia).
    by rewrite lookup_app_l.
  - rewrite Hl by (rewrite length_app; simpl; lia).
    by rewrite list_lookup_middle.
Qed.

(** The result of [forEach] is in the order of the input, whatever the
    order in which the fibers complete. *)
Lemma forEach_reads completions (items : list A) :
  Effect.forEach completions items f ctx rt = (Success (g <$> items), rt).
Proof.
  unfold Effect.forEach, Effect.map, Effect.flatMap, Effect.succeed.
  assert (((imap (fun i a => (i, a)) items).*1) = seq 0 (length items)) as Hfst.
  { rewrite fmap_imap.
    rewrite (imap_ext _ (fun j _ => j)) by done.
    rewrite (imap_seq_0 items (fun j => j)). apply list_fmap_id. }
  rewrite settle_reads by (rewrite Hfst; apply NoDup_seq).
  f_equal. f_equal.
  rewrite <- (length_fmap g items) at 1. apply arrayValues_of_list.
  intros i Hi. rewrite (right_id_L ∅ (∪)).
  rewrite list_lookup_fmap.
  destruct (items !! i) as [a|] eqn:Ha; simpl.
  - apply elem_of_list_to_map; [by rewrite fiberResults_fst, Hfst; apply NoDup_seq|].
    unfold fiberResults. apply list_elem_of_fmap. exists (i, a). split; [done|].
    apply list_elem_of_lookup. exists i.
    by rewrite list_lookup_imap, Ha.
  - apply lookup_ge_None in Ha. rewrite length_fmap in Hi. lia.
Qed.
End ForEach.

Lemma runtime_eta rt : mkRuntime (scope rt) (world rt) = rt.
Proof. by destruct rt. Qed.

Lemma setMaps_id (f : list (gmap string string) -> list (gmap string string)) w :
  f (maps w) = maps w -> setMaps f w = w.
Proof. destruct w; unfold setMaps; simpl. by intros ->. Qed.

Lemma setMaps_setMaps f g w :
  setMaps f (setMaps g w) = setMaps (fun h => f (g h)) w.
Proof. done. Qed.

Lemma contents_alter (f : gmap string string -> gmap string string) map w :
  map < length (maps w) ->
  JsMap.contents map (setMaps (alter f map) w) = f (JsMap.contents map w).
Proof.
  intros Hlt. unfold JsMap.contents, setMaps; simpl.
  rewrite list_lookup_alter_eq.
  destruct (lookup_lt_is_Some_2 _ _ Hlt) as [m ->]. done.
Qed.

(** ** [HashMap] *)

Lemma fromIterable_snoc {V} (entries : list (string * V)) key value :
  HashMap.fromIterable (entries ++ [(key, value)])
  = <[key:=value]> (HashMap.fromIterable entries).
Proof. unfold HashMap.fromIterable. by rewrite foldl_snoc. Qed.

Lemma fromIterable_lookup_None {V} (entries : list (string * V)) key :
  key ∉ entries.*1 -> HashMap.fromIterable entries !! key = None.
Proof.
  induction entries as [|[k v] entries IH] using rev_ind; intros Hk; [done|].
  rewrite fmap_app in Hk. simpl in Hk.
  apply not_elem_of_app in Hk as [Hk Hne].
  apply not_elem_of_cons in Hne as [Hne _].
  rewrite fromIterable_snoc, lookup_insert_ne by done. by apply IH.
Qed.

Lemma fromIterable_lookup_elem {V} (entries : list (string * V)) key value :
  HashMap.fromIterable entries !! key = Some value -> (key, value) ∈ entries.
Proof.
  induction entries as [|[k v] entries IH] using rev_ind; [done|].
  rewrite fromIterable_snoc. destruct (decide (k = key)) as [->|Hne].
  - rewrite lookup_insert_eq. intros [= ->].
    apply elem_of_app. right. by apply list_elem_of_singleton.
  - rewrite lookup_insert_ne by done. intros Hk.
    apply elem_of_app. left. by apply IH.
Qed.

(** the entry that counts for a key is the last one in the list *)
Lemma fromIterable_lookup_last {V} (before after : list (string * V)) key value :
  key ∉ after.*1 ->
  HashMap.fromIterable (before ++ (key, value) :: after) !! key = Some value.
Proof.
  induction after as [|[k v] after IH] using rev_ind; intros Hk.
  - by rewrite fromIterable_snoc, lookup_insert_eq.
  - rewrite fmap_app in Hk. simpl in Hk.
    apply not_elem_of_app in Hk as [Hk Hne].
    apply not_elem_of_cons in Hne as [Hne _].
    rewrite app_comm_cons, app_assoc, fromIterable_snoc.
    rewrite lookup_insert_ne by done. by apply IH.
Qed.

Lemma compact_lookup {V} (self : gmap string (option V)) key :
  HashMap.compact self !! key = self !! key ≫= id.
Proof. apply lookup_omap. Qed.

(** [reduce] with [setInto] merges the entries into the object behind
    [map], in place; entries of the hash map win. *)
Lemma reduce_setInto (fetched : gmap string string) map w :
  HashMap.reduce (map, w) setInto fetched
  = (map, setMaps (alter (fun seed => fetched ∪ seed) map) w).
Proof.
  unfold HashMap.reduce.
  apply (map_fold_weak_ind
    (fun r m => r = (map, setMaps (alter (fun seed => m ∪ seed) map) w))).
  - f_equal. symmetry. apply setMaps_id, list_alter_id.
    intros seed. apply (left_id_L ∅ (∪)).
  - intros key value m r Hfresh ->. simpl. unfold JsMap.set.
    rewrite setMaps_setMaps. f_equal. unfold setMaps. f_equal.
    rewrite list_alter_alter_eq. apply list_alter_ext; [|done].
    intros seed _. simpl. by rewrite insert_union_l.
Qed.

(** * Properties of the repository's code *)

Lemma settle_completionOrder {E A B} (f : A -> nat -> Eff E B) completions
    (pending : list (nat * A)) array ctx rt :
  Effect.settle f completions pending array ctx rt
  = Effect.settleInOrder f (completionOrder completions pending) array ctx rt.
Proof.
  revert pending array rt.
  induction completions as [|c later IH]; intros pending array rt; [done|].
  simpl. destruct (pending !! (c mod length pending)) as [[i a]|]; [|done].
  simpl. destruct (f a i ctx rt) as [[b|e|d] rt']; [apply IH|done|done].
Qed.

(** ** The service *)

Lemma getSecret_reads {E} projectId client name (ctx : Context) rt :
  @Effect.option GetSecretError E _
    (fun _ => getSecret (gcpSecretManagerOf projectId client) name) ctx rt
  = (Success (secretResultOf projectId (world rt) name), rt).
Proof.
  unfold Effect.option, gcpSecretManagerOf, getSecretWith, secretResultOf; simpl.
  unfold Effect.flatMap, Effect.tryPromise,
    SecretManagerServiceClient.accessSecretVersion.
  destruct (remote (world rt) (secretVersionName projectId name)) as [|[value|]];
    done.
Qed.

Lemma fetchOne_reads {E} projectId client secretInput (ctx : Context) rt :
  @fetchOne E (gcpSecretManagerOf projectId client) secretInput ctx rt
  = (Success (outcomeOf projectId (world rt) secretInput), rt).
Proof.
  unfold fetchOne, Effect.flatMap. by rewrite getSecret_reads.
Qed.

(** ** The seed map *)

Lemma yieldReference_run {E} (ctx : Context) rt :
  @yieldReference E SecretMap ctx rt
  = (Success (seedOf ctx (world rt)), onWorld (withSeed ctx) rt).
Proof.
  unfold yieldReference, Effect.reference, seedOf, withSeed, onWorld; simpl.
  destruct (ctxSecretMap ctx); [by rewrite runtime_eta|].
  destruct (defaultValueCache (world rt)); [by rewrite runtime_eta|done].
Qed.

Lemma withSeed_remote ctx w : remote (withSeed ctx w) = remote w.
Proof.
  unfold withSeed. destruct (ctxSecretMap ctx); [done|].
  by destruct (defaultValueCache w).
Qed.

Lemma withSeed_clients ctx w : clients (withSeed ctx w) = clients w.
Proof.
  unfold withSeed. destruct (ctxSecretMap ctx); [done|].
  by destruct (defaultValueCache w).
Qed.

Lemma fetchedFrom_withSeed projectId ctx w inputs :
  fetchedFrom projectId (withSeed ctx w) inputs = fetchedFrom projectId w inputs.
Proof.
  unfold fetchedFrom. do 2 f_equal. apply list_fmap_ext. intros _ s _.
  unfold outcomeOf, secretResultOf. by rewrite withSeed_remote.
Qed.

(** ** The aggregation *)

(** Whatever the completion order and whatever the store answers, the
    pipeline succeeds with the seed reference, and the world is the one in
    which the fetched entries have been set into the seed map. *)
Lemma secretMapForConfigProvider_run {E} completions input projectId client
    (ctx : Context) rt :
  @secretMapForConfigProvider E completions input
    (gcpSecretManagerOf projectId client) ctx rt
  = (Success (seedOf ctx (world rt)),
     onWorld (mergedWorld projectId (secrets input) ctx) rt).
Proof.
  unfold secretMapForConfigProvider, Effect.mapSync, Effect.map.
  unfold Effect.flatMap at 1. rewrite yieldReference_run.
  unfold Effect.flatMap.
  rewrite (forEach_reads _ (outcomeOf projectId (world (onWorld (withSeed ctx) rt))))
    by (intros; apply fetchOne_reads).
  unfold Effect.succeed, Effect.sync. rewrite reduce_setInto.
  unfold onWorld, mergedWorld; simpl.
  by rewrite <- (fetchedFrom_withSeed projectId ctx (world rt)).
Qed.

Lemma fromSecretManager_run {E} completions input projectId client
    (ctx : Context) rt :
  ctxGcpSecretManager ctx = Some (gcpSecretManagerOf projectId client) ->
  @fromSecretManager E completions input ctx rt
  = (Success (ConfigProvider.fromMap
                (JsMap.contents (seedOf ctx (world rt))
                   (mergedWorld projectId (secrets input) ctx (world rt)))),
     onWorld (mergedWorld projectId (secrets input) ctx) rt).
Proof.
  intros Hsvc. unfold fromSecretManager.
  unfold Effect.flatMap at 1. unfold Effect.service; simpl. rewrite Hsvc.
  unfold Effect.flatMap. rewrite secretMapForConfigProvider_run.
  unfold Effect.sync, onWorld; simpl. done.
Qed.

(** ** What the fetches amount to *)

Lemma fetchedFrom_lookup_None projectId w inputs key :
  (forall s, s ∈ inputs -> nameInConfigOf s = key ->
     secretResultOf projectId w (nameInSecretManagerOf s) = None) ->
  fetchedFrom projectId w inputs !! key = None.
Proof.
  intros Hfail. unfold fetchedFrom. rewrite compact_lookup.
  destruct (HashMap.fromIterable (outcomeOf projectId w <$> inputs) !! key)
    as [[value|]|] eqn:Hk; [|done|done].
  apply fromIterable_lookup_elem, list_elem_of_fmap in Hk as (s & Hs & Hin).
  injection Hs as Hname Hvalue. symmetry in Hname.
  by rewrite (Hfail s Hin Hname) in Hvalue.
Qed.

Lemma fetchedFrom_all_fail projectId w inputs :
  (forall s, s ∈ inputs ->
     secretResultOf projectId w (nameInSecretManagerOf s) = None) ->
  fetchedFrom projectId w inputs = ∅.
Proof.
  intros Hfail. apply map_eq. intros key. rewrite lookup_empty.
  apply fetchedFrom_lookup_None. auto.
Qed.

(** the last element listed for a key decides what is fetched for it *)
Lemma fetchedFrom_lookup_last projectId w before s after :
  nameInConfigOf s ∉ (nameInConfigOf <$> after) ->
  fetchedFrom projectId w (before ++ s :: after) !! nameInConfigOf s
  = secretResultOf projectId w (nameInSecretManagerOf s).
Proof.
  intros Hlast. unfold fetchedFrom.
  rewrite compact_lookup, fmap_app, fmap_cons.
  unfold outcomeOf at 2. rewrite fromIterable_lookup_last; [done|].
  rewrite <- list_fmap_compose. exact Hlast.
Qed.

Lemma fetchedFrom_nil projectId w : fetchedFrom projectId w [] = ∅.
Proof. done. Qed.

(** the seed map after the merge: fetched entries on top of the seed *)
Lemma merged_contents projectId inputs ctx w :
  liveSeed ctx w ->
  JsMap.contents (seedOf ctx w) (mergedWorld projectId inputs ctx w)
  = fetchedFrom projectId w inputs ∪ seedContents ctx w.
Proof. intros Hlive. unfold mergedWorld. by rewrite contents_alter. Qed.

Lemma merged_contents_nil projectId ctx w :
  JsMap.contents (seedOf ctx w) (mergedWorld projectId [] ctx w)
  = seedContents ctx w.
Proof.
  unfold mergedWorld, seedContents. f_equal. apply setMaps_id, list_alter_id.
  intros seed. rewrite fetchedFrom_nil. apply (left_id_L ∅ (∪)).
Qed.

Lemma mergedWorld_clients projectId inputs ctx w :
  clients (mergedWorld projectId inputs ctx w) = clients w.
Proof. unfold mergedWorld; simpl. apply withSeed_clients. Qed.

(** ** Building the layers *)

(** the service and the configuration do not change which map is the seed *)
Lemma seedOf_serviceContext projectId client ctx w :
  seedOf (serviceContext projectId client ctx) w = seedOf ctx w.
Proof. done. Qed.

(** The layer first builds the configuration and the service, which
    constructs one client and registers its [close] in the scope, and then
    runs [provider] in that context. *)
Lemma scopedLayer_run {E} projectId (provider : Eff E ConfigProvider)
    (ctx : Context) rt exit rt' :
  provider
    (serviceContext projectId (length (clients (world rt))) ctx)
    (mkRuntime
       (SecretManagerServiceClient.close (length (clients (world rt))) :: scope rt)
       (SecretManagerServiceClient.new (world rt)).2)
  = (exit, rt') ->
  scopedLayer projectId provider ctx rt
  = (match exit with
     | Success p => Success (mkContext None None None (Some p))
     | Failure e => Failure e
     | Die d => Die d
     end, rt').
Proof.
  intros Hrun.
  unfold scopedLayer, Layer.provide, Layer.unwrapScoped, Layer.succeed,
    GcpSecretManager_Default, Layer.scoped, GcpSecretManager_scoped,
    Layer.setConfigProvider, Effect.provideSomeContext, Effect.map,
    Effect.acquireRelease, Effect.flatMap, Effect.succeed, Effect.service,
    Effect.sync, addFinalizer; simpl.
  unfold serviceContext in Hrun. simpl in Hrun. rewrite Hrun.
  by destruct exit.
Qed.

Lemma scopedLayer_fromSecretManager {E} (transform : ConfigProvider -> ConfigProvider)
    completions input pid (ctx : Context) rt :
  @scopedLayer E pid
    (Effect.map transform (fromSecretManager completions input)) ctx rt
  = (Success (providing (transform
       (ConfigProvider.fromMap (secretMapOf pid (secrets input) ctx (world rt))))),
     builtRuntime pid (secrets input) ctx rt).
Proof.
  erewrite scopedLayer_run.
  2: { unfold Effect.map, Effect.flatMap.
       erewrite fromSecretManager_run by done. done. }
  done.
Qed.

Lemma layerGcp_run {E} completions input (ctx : Context) rt :
  @layerGcp E completions input ctx rt
  = (Success (providing
       (ConfigProvider.fromMap
          (secretMapOf (projectId input) (secrets input) ctx (world rt)))),
     builtRuntime (projectId input) (secrets input) ctx rt).
Proof.
  transitivity (@scopedLayer E (projectId input)
    (fromSecretManager completions input) ctx rt); [done|].
  erewrite scopedLayer_run.
  2: { erewrite fromSecretManager_run by done. done. }
  done.
Qed.

Lemma layerGcpWithEnvFallback_run {E} completions input (ctx : Context) rt :
  @layerGcpWithEnvFallback E completions input ctx rt
  = (Success (providing
       (ConfigProvider.orElse (fun _ => ConfigProvider.fromEnv tt)
          (ConfigProvider.fromMap
             (secretMapOf (projectId input) (secrets input) ctx (world rt))))),
     builtRuntime (projectId input) (secrets input) ctx rt).
Proof. apply (scopedLayer_fromSecretManager (E:=E)). Qed.

Lemma layerGcpWithJsonFallback_run {E} (Json : Type)
    (fromJson : Json -> ConfigProvider) completions json input (ctx : Context) rt :
  @layerGcpWithJsonFallback Json fromJson E completions json input ctx rt
  = (Success (providing
       (ConfigProvider.orElse (fun _ => fromJson json)
          (ConfigProvider.fromMap
             (secretMapOf (projectId input) (secrets input) ctx (world rt))))),
     builtRuntime (projectId input) (secrets input) ctx rt).
Proof.
  exact (scopedLayer_fromSecretManager (E:=E)
           (ConfigProvider.orElse (fun _ => fromJson json)) completions
           (mkInput (projectId input) (secrets input)) (projectId input) ctx rt).
Qed.

(** ** Keys of a map-backed provider *)

Lemma splitOn_nonempty delim s : splitOn delim s <> [].
Proof. destruct s as [|c rest]; simpl; [done|]. by case_decide. Qed.

Lemma joinWith_cons delim part rest :
  rest <> [] ->
  joinWith delim (part :: rest) = part +:+ String delim (joinWith delim rest).
Proof. by destruct rest. Qed.

(** cutting a string at the delimiter and joining it again gives it back *)
Lemma joinWith_splitOn delim s : joinWith delim (splitOn delim s) = s.
Proof.
  induction s as [|c rest IH]; [done|]. simpl. case_decide as Hc.
  - rewrite joinWith_cons by apply splitOn_nonempty. rewrite IH. by subst.
  - destruct (splitOn delim rest) as [|seg segs] eqn:Hsplit;
      [by destruct (splitOn_nonempty delim rest)|].
    simpl in *. destruct segs; by rewrite <- IH.
Qed.

Lemma hasChar_app c s1 s2 :
  hasChar c (s1 +:+ s2) = hasChar c s1 || hasChar c s2.
Proof.
  induction s1 as [|a s1 IH]; [done|].
  change (hasChar c (String a (s1 +:+ s2))
          = hasChar c (String a s1) || hasChar c s2).
  simpl. by case_decide.
Qed.

Lemma hasChar_joinWith c delim parts :
  delim <> c ->
  hasChar c (joinWith delim parts) = existsb (hasChar c) parts.
Proof.
  intros Hne. induction parts as [|part rest IH]; [done|].
  destruct rest as [|next rest].
  - simpl. by rewrite orb_false_r.
  - rewrite joinWith_cons by done. rewrite hasChar_app.
    change (existsb (hasChar c) (part :: next :: rest))
      with (hasChar c part || existsb (hasChar c) (next :: rest)).
    rewrite <- IH. f_equal. simpl. by case_decide.
Qed.

Lemma hasChar_In c s :
  In c (String.list_ascii_of_string s) -> hasChar c s = true.
Proof.
  induction s as [|a rest IH]; simpl; [done|].
  intros [->|Hin]; case_decide; auto.
Qed.

(** a segment without a closing bracket is not an indexed one *)
Lemma splitIndexFrom_plain segment :
  hasChar "]" segment = false -> splitIndexFrom segment = None.
Proof.
  intros Hplain. unfold splitIndexFrom.
  destruct (rev (String.list_ascii_of_string segment)) as [|c before] eqn:Hrev;
    [done|].
  case_decide as Hc; [|done]. subst c.
  rewrite hasChar_In in Hplain; [done|].
  apply in_rev. rewrite Hrev. by left.
Qed.

Lemma keyWithIndex_plain segment :
  hasChar "]" segment = false -> keyWithIndex segment = [segment].
Proof. intros Hplain. unfold keyWithIndex. by rewrite splitIndexFrom_plain. Qed.

(** a segment is either kept, or one of its pieces ends in a bracket *)
Lemma keyWithIndex_cases segment :
  keyWithIndex segment = [segment]
  \/ existsb (hasChar "]") (keyWithIndex segment) = true.
Proof.
  unfold keyWithIndex.
  destruct (splitIndexFrom segment) as [[name index]|]; [right|by left].
  simpl. rewrite !hasChar_app. simpl. by rewrite !orb_true_r.
Qed.

Lemma flat_map_keyWithIndex_plain segments :
  existsb (hasChar "]") segments = false ->
  flat_map keyWithIndex segments = segments.
Proof.
  induction segments as [|segment rest IH]; [done|]. simpl.
  intros [Hseg Hrest]%orb_false_elim.
  by rewrite keyWithIndex_plain, IH.
Qed.

Lemma flat_map_keyWithIndex_fixed segments :
  existsb (hasChar "]") (flat_map keyWithIndex segments) = false ->
  flat_map keyWithIndex segments = segments.
Proof.
  induction segments as [|segment rest IH]; [done|]. simpl.
  rewrite existsb_app. intros [Hseg Hrest]%orb_false_elim.
  destruct (keyWithIndex_cases segment) as [Hkept | Hsplit]; [|congruence].
  by rewrite Hkept, IH.
Qed.

(** a key without a closing bracket is kept under its own name *)
Lemma indexedPath_plain key :
  hasChar "]" key = false -> indexedPath key = key.
Proof.
  intros Hplain. unfold indexedPath.
  rewrite flat_map_keyWithIndex_plain; [apply joinWith_splitOn|].
  rewrite <- (hasChar_joinWith "]" ".") by done. by rewrite joinWith_splitOn.
Qed.

(** a name without a closing bracket is the rewritten name of itself only *)
Lemma indexedPath_fixed key :
  hasChar "]" (indexedPath key) = false -> indexedPath key = key.
Proof.
  unfold indexedPath. rewrite hasChar_joinWith by done. intros Hfixed.
  rewrite flat_map_keyWithIndex_fixed by done. apply joinWith_splitOn.
Qed.

Lemma keptAsIs_plain entries key :
  hasChar "]" key = false -> keptAsIs entries key.
Proof.
  intros Hplain. split; [intros _; by apply indexedPath_plain|].
  intros other Hne _ Heq. apply Hne. rewrite <- Heq.
  symmetry. apply indexedPath_fixed. by rewrite Heq.
Qed.

(** the copy the provider reads agrees with the map on such a name *)
Lemma splitIndexInKeys_kept entries key :
  keptAsIs entries key -> splitIndexInKeys entries !! key = entries !! key.
Proof.
  unfold splitIndexInKeys.
  apply (map_fold_weak_ind
    (fun newMap m => keptAsIs m key -> newMap !! key = m !! key)); [done|].
  intros i x m newMap Hfresh IH [Hown Hothers].
  assert (newMap !! key = m !! key) as Hsame.
  { apply IH. split.
    - intros Hin. apply Hown. destruct (decide (i = key)) as [->|Hne].
      + by rewrite lookup_insert_eq.
      + by rewrite lookup_insert_ne.
    - intros other Hne Hin. apply Hothers; [done|].
      destruct (decide (i = other)) as [->|Hne'].
      + by rewrite lookup_insert_eq.
      + by rewrite lookup_insert_ne. }
  destruct (decide (i = key)) as [->|Hne].
  - rewrite Hown by (by rewrite lookup_insert_eq).
    by rewrite !lookup_insert_eq.
  - rewrite !lookup_insert_ne; [done|done|].
    apply Hothers; [done|]. by rewrite lookup_insert_eq.
Qed.

(** ** Lookups *)

Lemma fromMap_load entries key w :
  keptAsIs entries key ->
  load (ConfigProvider.fromMap entries) key w
  = match entries !! key with
    | Some value => Success value
    | None => Failure (MissingData [key]
                ("Expected " +:+ key +:+ " to exist in the provided map"))
    end.
Proof. intros Hkept. simpl. by rewrite splitIndexInKeys_kept. Qed.

(** the first provider answers whenever it has the key *)
Lemma orElse_primary that entries key value w :
  keptAsIs entries key ->
  entries !! key = Some value ->
  load (ConfigProvider.orElse that (ConfigProvider.fromMap entries)) key w
  = Success value.
Proof.
  intros Hkept Hk. unfold ConfigProvider.orElse. cbn [load].
  by rewrite fromMap_load, Hk.
Qed.

(** otherwise the second is asked *)
Lemma orElse_fallback that entries key w :
  keptAsIs entries key ->
  entries !! key = None ->
  load (ConfigProvider.orElse that (ConfigProvider.fromMap entries)) key w
  = match load (that tt) key w with
    | Failure error2 =>
        Failure (Or (MissingData [key]
                       ("Expected " +:+ key +:+ " to exist in the provided map"))
                    error2)
    | other => other
    end.
Proof.
  intros Hkept Hk. unfold ConfigProvider.orElse. cbn [load].
  by rewrite fromMap_load, Hk.
Qed.

(** ** Fetch failures *)

(** [getSecret] fails exactly when the store gives no payload: the promise
    was rejected, or it resolved without one. *)
Lemma getSecret_failure projectId client name rt :
  (exists e, getSecret (gcpSecretManagerOf projectId client) name rt
             = (Failure e, rt))
  <-> secretResultOf projectId (world rt) name = None.
Proof.
  unfold gcpSecretManagerOf, getSecretWith, secretResultOf; simpl.
  unfold Effect.flatMap, Effect.tryPromise,
    SecretManagerServiceClient.accessSecretVersion.
  destruct (remote (world rt) (secretVersionName projectId name)) as [|[value|]];
    simpl; split; try done; try (intros [e [=]]); eauto.
Qed.

Lemma getSecret_success projectId client name rt value :
  getSecret (gcpSecretManagerOf projectId client) name rt = (Success value, rt)
  <-> secretResultOf projectId (world rt) name = Some value.
Proof.
  unfold gcpSecretManagerOf, getSecretWith, secretResultOf; simpl.
  unfold Effect.flatMap, Effect.tryPromise,
    SecretManagerServiceClient.accessSecretVersion.
  destruct (remote (world rt) (secretVersionName projectId name)) as [|[v|]];
    unfold Effect.fromOption, Effect.fail, Effect.succeed;
    split; intros Heq; try discriminate Heq; congruence.
Qed.

Lemma secretResultOf_resolved projectId w name value :
  remote w (secretVersionName projectId name) = Resolved (Some value) ->
  secretResultOf projectId w name = Some value.
Proof. unfold secretResultOf. by intros ->. Qed.

Lemma seedContents_new_client ctx w :
  seedContents ctx (SecretManagerServiceClient.new w).2 = seedContents ctx w.
Proof.
  unfold seedContents, seedOf, withSeed, JsMap.contents; simpl.
  destruct (ctxSecretMap ctx); [done|]. by destruct (defaultValueCache w).
Qed.

Lemma secretMapOf_nil projectId ctx w :
  secretMapOf projectId [] ctx w = seedContents ctx w.
Proof.
  unfold secretMapOf, builtWorld.
  rewrite <- (seedContents_new_client ctx w).
  exact (merged_contents_nil projectId ctx (SecretManagerServiceClient.new w).2).
Qed.

(** ** Scenarios *)

(** [secrets = [{ nameInSecretManager: "api-key", nameInConfig: "API_KEY" }]]
    against a store holding [api-key = xyz], with the default (empty) seed:
    the map is [{ API_KEY: "xyz" }], in the [Map] object made as default. *)
Example scenario_renamed_secret :
  (@secretMapForConfigProvider Empty_set []
     (mkInput "demo" [Renamed "api-key" "API_KEY"])
     (gcpSecretManagerOf "demo" 0) Context.empty (mkRuntime [] freshWorld)).1
  = Success 0
  /\ JsMap.contents 0
       (world (@secretMapForConfigProvider Empty_set []
                 (mkInput "demo" [Renamed "api-key" "API_KEY"])
                 (gcpSecretManagerOf "demo" 0) Context.empty
                 (mkRuntime [] freshWorld)).2)
     = {[ "API_KEY" := "xyz" ]}.
Proof. split; vm_compute; reflexivity. Qed.

(** [secrets = ["MISSING", "PRESENT"]], the store lacks MISSING and holds
    [PRESENT = ok]: the map is [{ PRESENT: "ok" }], and a lookup of MISSING
    through the environment fallback is answered by the environment. *)
Example scenario_partial_failure :
  JsMap.contents 0
    (world (@layerGcpWithEnvFallback Empty_set [1; 0]
              (mkInput "demo" [BareName "MISSING"; BareName "PRESENT"])
              Context.empty (mkRuntime [] freshWorld)).2)
  = {[ "PRESENT" := "ok" ]}
  /\ match (@layerGcpWithEnvFallback Empty_set [1; 0]
              (mkInput "demo" [BareName "MISSING"; BareName "PRESENT"])
              Context.empty (mkRuntime [] freshWorld)).1 with
     | Success provided =>
         (fun provider => load provider "MISSING" freshWorld)
           <$> ctxConfigProvider provided
         = Some (Success "from-env")
     | _ => False
     end.
Proof. split; vm_compute; reflexivity. Qed.

(** * The claims *)

(** C1. The aggregation never fails because a fetch failed.  For every list
    of secret inputs, every completion order and every answer of the store
    it succeeds with a map; a failed fetch ([getSecret] failing, whether the
    promise was rejected or the secret has no payload) becomes the outcome
    [None] of its own element only; a fetch that succeeded still gets its
    entry; a key whose fetches all failed gets no fetched entry, so the map
    has for it what the seed had, and the key is absent when the seed does
    not have it; and when every fetch fails the map is the seed. *)
Theorem aggregation_tolerates_fetch_failures {E} completions input projectId
    client (ctx : Context) rt :
  liveSeed ctx (world rt) ->
  exists map rt',
    @secretMapForConfigProvider E completions input
      (gcpSecretManagerOf projectId client) ctx rt = (Success map, rt')
    /\ (forall s e,
          getSecret (gcpSecretManagerOf projectId client)
            (nameInSecretManagerOf s) rt = (Failure e, rt) ->
          @fetchOne E (gcpSecretManagerOf projectId client) s ctx rt
          = (Success (nameInConfigOf s, None), rt))
    /\ (forall before s after value,
          secrets input = before ++ s :: after ->
          nameInConfigOf s ∉ (nameInConfigOf <$> after) ->
          getSecret (gcpSecretManagerOf projectId client)
            (nameInSecretManagerOf s) rt = (Success value, rt) ->
          JsMap.contents map (world rt') !! nameInConfigOf s = Some value)
    /\ (forall key,
          (forall s, s ∈ secrets input -> nameInConfigOf s = key ->
             exists e, getSecret (gcpSecretManagerOf projectId client)
                         (nameInSecretManagerOf s) rt = (Failure e, rt)) ->
          fetchedFrom projectId (world rt) (secrets input) !! key = None
          /\ JsMap.contents map (world rt') !! key
             = seedContents ctx (world rt) !! key
          /\ (seedContents ctx (world rt) !! key = None ->
              JsMap.contents map (world rt') !! key = None))
    /\ ((forall s, s ∈ secrets input ->
           exists e, getSecret (gcpSecretManagerOf projectId client)
                       (nameInSecretManagerOf s) rt = (Failure e, rt)) ->
        JsMap.contents map (world rt') = seedContents ctx (world rt)).
Proof.
  intros Hlive. eexists _, _. split; [apply secretMapForConfigProvider_run|].
  unfold onWorld; simpl. rewrite merged_contents by done.
  split; [|split; [|split]].
  - intros s e Hfail. rewrite fetchOne_reads. unfold outcomeOf.
    by rewrite (proj1 (getSecret_failure _ _ _ _) (ex_intro _ e Hfail)).
  - intros before s after value -> Hlast Hok.
    apply lookup_union_Some_l. rewrite fetchedFrom_lookup_last by done.
    by apply (proj1 (getSecret_success projectId client _ rt value)).
  - intros key Hfail.
    assert (fetchedFrom projectId (world rt) (secrets input) !! key = None)
      as Hnone.
    { apply fetchedFrom_lookup_None. intros s Hin Hkey.
      apply (proj1 (getSecret_failure projectId client _ rt)).
      exact (Hfail s Hin Hkey). }
    rewrite (lookup_union_r _ _ _ Hnone). auto.
  - intros Hfail. rewrite fetchedFrom_all_fail; [apply (left_id_L ∅ (∪))|].
    intros s Hin. apply (proj1 (getSecret_failure projectId client _ rt)).
    exact (Hfail s Hin).
Qed.

Lemma aggregation_tolerates_fetch_failures_witness :
  liveSeed exampleContext (world exampleRuntime)
  /\ exists map rt',
       @secretMapForConfigProvider Empty_set [2; 0] exampleInput
         (gcpSecretManagerOf "demo" 0) exampleContext exampleRuntime
       = (Success map, rt')
       /\ JsMap.contents map (world rt') !! "MISSING" = None.
Proof.
  assert (liveSeed exampleContext (world exampleRuntime)) as Hlive
    by (vm_compute; lia).
  split; [exact Hlive|].
  destruct (@aggregation_tolerates_fetch_failures Empty_set [2; 0] exampleInput
              "demo" 0 exampleContext exampleRuntime Hlive)
    as (map & rt' & Hrun & _ & _ & Habsent & _).
  exists map, rt'. split; [exact Hrun|].
  apply (Habsent "MISSING"); [|reflexivity].
  intros s Hin Hkey. exists UnknownException.
  apply list_elem_of_In in Hin.
  destruct Hin as [<- | [<- | [<- | []]]]; [reflexivity | discriminate Hkey ..].
Defined.

(** C2. The merge onto the seed map: a key the fetches produced holds the
    fetched value afterwards, also when the seed had a value for it; every
    other key holds what the seed held. *)
Theorem merge_overwrites_seed_and_keeps_the_rest {E} completions input
    projectId client (ctx : Context) rt :
  liveSeed ctx (world rt) ->
  exists map rt',
    @secretMapForConfigProvider E completions input
      (gcpSecretManagerOf projectId client) ctx rt = (Success map, rt')
    /\ forall key,
         match fetchedFrom projectId (world rt) (secrets input) !! key with
         | Some value => JsMap.contents map (world rt') !! key = Some value
         | None =>
             JsMap.contents map (world rt') !! key
             = seedContents ctx (world rt) !! key
         end.
Proof.
  intros Hlive. eexists _, _. split; [apply secretMapForConfigProvider_run|].
  unfold onWorld; simpl. rewrite merged_contents by done. intros key.
  destruct (fetchedFrom projectId (world rt) (secrets input) !! key)
    as [value|] eqn:Hk.
  - by apply lookup_union_Some_l.
  - by apply lookup_union_r.
Qed.

Lemma merge_overwrites_seed_and_keeps_the_rest_witness :
  liveSeed exampleContext (world exampleRuntime)
  /\ JsMap.contents 0
       (world (@secretMapForConfigProvider Empty_set [1] exampleInput
                 (gcpSecretManagerOf "demo" 0) exampleContext exampleRuntime).2)
     !! "API_KEY" = Some "xyz"
  /\ JsMap.contents 0
       (world (@secretMapForConfigProvider Empty_set [1] exampleInput
                 (gcpSecretManagerOf "demo" 0) exampleContext exampleRuntime).2)
     !! "SEED" = Some "s".
Proof.
  assert (liveSeed exampleContext (world exampleRuntime)) as Hlive
    by (vm_compute; lia).
  split; [exact Hlive|].
  destruct (@merge_overwrites_seed_and_keeps_the_rest Empty_set [1] exampleInput
              "demo" 0 exampleContext exampleRuntime Hlive)
    as (map & rt' & Hrun & Hmerge).
  rewrite Hrun. simpl.
  assert (map = 0) as -> by (vm_compute in Hrun; congruence).
  split.
  - exact (Hmerge "API_KEY").
  - exact (Hmerge "SEED").
Defined.

(** C3, as the code has it.  When several inputs map to the same key, the
    order in which the fetches complete plays no part: the aggregation gives
    the same result under any two completion orders, and the input listed
    last for the key decides.  If its fetch gave a value, that value is
    kept; if its fetch failed, the key gets no fetched entry and holds what
    the seed held. *)
Theorem colliding_keys_resolved_by_list_order {E} completions completions'
    input projectId client (ctx : Context) rt before s after :
  liveSeed ctx (world rt) ->
  secrets input = before ++ s :: after ->
  nameInConfigOf s ∉ (nameInConfigOf <$> after) ->
  @secretMapForConfigProvider E completions input
    (gcpSecretManagerOf projectId client) ctx rt
  = @secretMapForConfigProvider E completions' input
      (gcpSecretManagerOf projectId client) ctx rt
  /\ exists map rt',
       @secretMapForConfigProvider E completions input
         (gcpSecretManagerOf projectId client) ctx rt = (Success map, rt')
       /\ JsMap.contents map (world rt') !! nameInConfigOf s
          = match secretResultOf projectId (world rt) (nameInSecretManagerOf s) with
            | Some value => Some value
            | None => seedContents ctx (world rt) !! nameInConfigOf s
            end.
Proof.
  intros Hlive Hsplit Hlast. split.
  - by rewrite !secretMapForConfigProvider_run.
  - eexists _, _. split; [apply secretMapForConfigProvider_run|].
    unfold onWorld; simpl. rewrite merged_contents by done.
    pose proof (fetchedFrom_lookup_last projectId (world rt) before s after Hlast)
      as Hk.
    rewrite <- Hsplit in Hk.
    destruct (secretResultOf projectId (world rt) (nameInSecretManagerOf s))
      as [value|].
    + by apply lookup_union_Some_l.
    + by apply lookup_union_r.
Qed.

Lemma colliding_keys_resolved_by_list_order_witness :
  liveSeed exampleContext (world exampleRuntime)
  /\ secrets collidingInput = [Renamed "first" "KEY"] ++ Renamed "second" "KEY" :: []
  /\ ("KEY" ∉ (nameInConfigOf <$> []))
  /\ @secretMapForConfigProvider Empty_set [1] collidingInput
       (gcpSecretManagerOf "demo" 0) exampleContext exampleRuntime
     = @secretMapForConfigProvider Empty_set [0] collidingInput
         (gcpSecretManagerOf "demo" 0) exampleContext exampleRuntime.
Proof.
  assert (liveSeed exampleContext (world exampleRuntime)) as Hlive
    by (vm_compute; lia).
  assert ("KEY" ∉ (nameInConfigOf <$> [])) as Hlast by (simpl; apply not_elem_of_nil).
  split; [exact Hlive|]. split; [reflexivity|]. split; [exact Hlast|].
  exact (proj1 (@colliding_keys_resolved_by_list_order Empty_set [1] [0]
                  collidingInput "demo" 0 exampleContext exampleRuntime
                  [Renamed "first" "KEY"] (Renamed "second" "KEY") []
                  Hlive eq_refl Hlast)).
Defined.

(** C3, as the claim has it, fails.  Both inputs map to KEY; under the
    completion order [1] the fiber of "second" completes first and the one
    of "first" last, with the value A; yet the map holds B under KEY. *)
Lemma last_completion_does_not_win :
  ~ lastToCompleteWins [1] collidingInput "demo" 0 exampleContext exampleRuntime.
Proof.
  intros Hclaim.
  specialize (Hclaim "KEY" 0 (Renamed "first" "KEY") "A").
  assert (Some "B" = Some "A") as Habsurd; [|discriminate Habsurd].
  etransitivity; [|apply Hclaim; vm_compute; reflexivity].
  vm_compute. reflexivity.
Qed.

(** C7, as the code has it.  An input given as a pair is fetched from the
    store under its [nameInSecretManager] and its outcome is paired with
    its [nameInConfig]; an input given as a bare name uses that name for
    both.  The fetched value is what the map holds under [nameInConfig]
    when no input listed later has the same [nameInConfig]. *)
Theorem fetched_by_external_name_stored_under_config_key {E} completions input
    projectId client (ctx : Context) rt before s after value :
  liveSeed ctx (world rt) ->
  secrets input = before ++ s :: after ->
  nameInConfigOf s ∉ (nameInConfigOf <$> after) ->
  remote (world rt) (secretVersionName projectId (nameInSecretManagerOf s))
    = Resolved (Some value) ->
  match s with
  | BareName name => nameInSecretManagerOf s = name /\ nameInConfigOf s = name
  | Renamed nameInSecretManager nameInConfig =>
      nameInSecretManagerOf s = nameInSecretManager
      /\ nameInConfigOf s = nameInConfig
  end
  /\ @fetchOne E (gcpSecretManagerOf projectId client) s ctx rt
     = (Success (nameInConfigOf s, Some value), rt)
  /\ exists map rt',
       @secretMapForConfigProvider E completions input
         (gcpSecretManagerOf projectId client) ctx rt = (Success map, rt')
       /\ JsMap.contents map (world rt') !! nameInConfigOf s = Some value.
Proof.
  intros Hlive Hsplit Hlast Hstore.
  apply secretResultOf_resolved in Hstore.
  split; [by destruct s|]. split.
  - rewrite fetchOne_reads. unfold outcomeOf. by rewrite Hstore.
  - eexists _, _. split; [apply secretMapForConfigProvider_run|].
    unfold onWorld; simpl. rewrite merged_contents by done.
    apply lookup_union_Some_l.
    by rewrite Hsplit, fetchedFrom_lookup_last.
Qed.

Lemma fetched_by_external_name_stored_under_config_key_witness :
  liveSeed exampleContext (world exampleRuntime)
  /\ exists map rt',
       @secretMapForConfigProvider Empty_set [] exampleInput
         (gcpSecretManagerOf "demo" 0) exampleContext exampleRuntime
       = (Success map, rt')
       /\ JsMap.contents map (world rt') !! "API_KEY" = Some "xyz".
Proof.
  assert (liveSeed exampleContext (world exampleRuntime)) as Hlive
    by (vm_compute; lia).
  split; [exact Hlive|].
  refine (proj2 (proj2 (@fetched_by_external_name_stored_under_config_key
    Empty_set [] exampleInput "demo" 0 exampleContext exampleRuntime
    [BareName "MISSING"; BareName "PRESENT"] (Renamed "api-key" "API_KEY") []
    "xyz" Hlive eq_refl _ eq_refl))).
  simpl. apply not_elem_of_nil.
Defined.

(** C7, as the claim has it, fails for an input that is not the last one
    listed for its key.  Both inputs map to KEY; the store holds the
    secret [first] with the value A and does not have [no-such]; the
    outcome of the second input replaces that of the first and is then
    dropped, so the map holds nothing under KEY although A was fetched. *)
Lemma fetched_value_dropped_by_later_input :
  ~ everyFetchedValueStored [] shadowedInput "demo" 0 exampleContext
      exampleRuntime.
Proof.
  intros Hclaim.
  specialize (Hclaim (Renamed "first" "KEY") "A").
  assert (@None string = Some "A") as Habsurd; [|discriminate Habsurd].
  etransitivity; [|apply Hclaim].
  - vm_compute. reflexivity.
  - apply list_elem_of_here.
  - reflexivity.
Qed.

(** C10. The merge writes into the seed [Map] object itself.  With a seed
    supplied by the caller, the aggregation returns the caller's reference;
    the object behind it holds the fetched entries on top of what it held;
    no other object is touched; and that object is what the provider is
    made from. *)
Theorem seed_map_mutated_in_place {E} completions input projectId client
    (ctx : Context) rt map seed :
  ctxSecretMap ctx = Some map ->
  maps (world rt) !! map = Some seed ->
  exists rt',
    @secretMapForConfigProvider E completions input
      (gcpSecretManagerOf projectId client) ctx rt = (Success map, rt')
    /\ maps (world rt') !! map
       = Some (fetchedFrom projectId (world rt) (secrets input) ∪ seed)
    /\ (forall key value,
          fetchedFrom projectId (world rt) (secrets input) !! key = Some value ->
          JsMap.contents map (world rt') !! key = Some value)
    /\ (forall other, other <> map ->
          maps (world rt') !! other = maps (world rt) !! other)
    /\ length (maps (world rt')) = length (maps (world rt))
    /\ (ctxGcpSecretManager ctx = Some (gcpSecretManagerOf projectId client) ->
        @fromSecretManager E completions input ctx rt
        = (Success (ConfigProvider.fromMap (JsMap.contents map (world rt'))), rt')).
Proof.
  intros Hctx Hseed. eexists. split.
  { rewrite secretMapForConfigProvider_run. unfold seedOf. by rewrite Hctx. }
  assert (maps (mergedWorld projectId (secrets input) ctx (world rt)) !! map
          = Some (fetchedFrom projectId (world rt) (secrets input) ∪ seed))
    as Hafter.
  { unfold mergedWorld, seedOf, withSeed. rewrite Hctx. simpl.
    by rewrite list_lookup_alter_eq, Hseed. }
  unfold onWorld; simpl. split; [exact Hafter|]. split; [|split; [|split]].
  - intros key value Hk. unfold JsMap.contents. rewrite Hafter. simpl.
    by apply lookup_union_Some_l.
  - intros other Hne. unfold mergedWorld, seedOf, withSeed. rewrite Hctx. simpl.
    by rewrite list_lookup_alter_ne.
  - unfold mergedWorld, seedOf, withSeed. rewrite Hctx. simpl.
    apply length_alter.
  - intros Hsvc. rewrite (fromSecretManager_run _ _ _ _ _ _ Hsvc).
    unfold seedOf. by rewrite Hctx.
Qed.

Lemma seed_map_mutated_in_place_witness :
  ctxSecretMap exampleContext = Some 0
  /\ maps (world exampleRuntime) !! 0 = Some {[ "SEED" := "s"; "API_KEY" := "old" ]}
  /\ exists rt',
       @secretMapForConfigProvider Empty_set [] exampleInput
         (gcpSecretManagerOf "demo" 0) exampleContext exampleRuntime
       = (Success 0, rt')
       /\ maps (world rt') !! 0
          = Some (fetchedFrom "demo" (world exampleRuntime) (secrets exampleInput)
                  ∪ {[ "SEED" := "s"; "API_KEY" := "old" ]}).
Proof.
  split; [reflexivity|]. split; [reflexivity|].
  destruct (@seed_map_mutated_in_place Empty_set [] exampleInput "demo" 0
              exampleContext exampleRuntime 0
              {[ "SEED" := "s"; "API_KEY" := "old" ]} eq_refl eq_refl)
    as (rt' & Hrun & Hafter & _).
  exists rt'. split; [exact Hrun|exact Hafter].
Defined.

(** C4, as the code has it.  Through either fallback layer, a key without
    a closing bracket that the secret-derived map holds with value [A] is
    answered with [A], whatever the fallback source holds: the map-backed
    provider keeps such a key under its own name, and it is asked first. *)
Theorem secret_value_shadows_fallback {E} (Json : Type)
    (fromJson : Json -> ConfigProvider) (layer : Layer E) completions json
    input (ctx : Context) rt key A w :
  layer = layerGcpWithEnvFallback completions input
  \/ layer = layerGcpWithJsonFallback Json fromJson completions json input ->
  hasChar "]" key = false ->
  JsMap.contents (seedOf ctx (world rt)) (world (layer ctx rt).2) !! key
    = Some A ->
  exists provider,
    (layer ctx rt).1 = Success (providing provider)
    /\ load provider key w = Success A.
Proof.
  intros [-> | ->] Hplain.
  - rewrite layerGcpWithEnvFallback_run. cbn [fst snd]. intros Hk.
    eexists. split; [done|]. by apply orElse_primary, Hk; apply keptAsIs_plain.
  - rewrite layerGcpWithJsonFallback_run. cbn [fst snd]. intros Hk.
    eexists. split; [done|]. by apply orElse_primary, Hk; apply keptAsIs_plain.
Qed.

Lemma secret_value_shadows_fallback_witness :
  env exampleWorld !! "API_KEY" = Some "env-key"
  /\ exists provider,
       (@layerGcpWithEnvFallback Empty_set [] exampleInput
          exampleContext exampleRuntime).1 = Success (providing provider)
       /\ load provider "API_KEY" exampleWorld = Success "xyz".
Proof.
  split; [reflexivity|].
  apply (@secret_value_shadows_fallback Empty_set unit
           (fun _ => ConfigProvider.fromMap ∅)
           (layerGcpWithEnvFallback [] exampleInput) [] tt exampleInput
           exampleContext exampleRuntime "API_KEY" "xyz" exampleWorld).
  - left. reflexivity.
  - reflexivity.
  - vm_compute. reflexivity.
Defined.

(** C4, as the claim has it, fails.  The secret-derived map holds
    [ARR[0] = xyz]; the provider keeps that entry under the name
    [ARR.[0]], so the lookup of [ARR[0]] misses it and is answered by the
    environment, which has a variable of that name. *)
Lemma indexed_key_is_answered_by_the_fallback :
  ~ secretShadowsEnvFallback [] indexedInput exampleContext
      (mkRuntime [] indexedWorld) "ARR[0]" indexedWorld.
Proof.
  intros Hclaim.
  destruct (Hclaim "xyz") as (provider & Hrun & Hload);
    [vm_compute; reflexivity|].
  rewrite layerGcpWithEnvFallback_run in Hrun. cbn [fst] in Hrun.
  injection Hrun as <-. vm_compute in Hload. discriminate Hload.
Qed.

(** C5, as the code has it.  Through the environment-fallback layer, a key
    without a closing bracket that the secret-derived map does not hold is
    answered from the environment when the variable of that name is set,
    and reported missing when it is not: the map-backed provider rewrites
    none of the map's keys to such a name.  Names that [process.env]
    inherits as an object are left aside. *)
Theorem env_fallback_for_absent_secret {E} completions input (ctx : Context)
    rt key w :
  hasChar "]" key = false ->
  objectPrototypeName key = false ->
  JsMap.contents (seedOf ctx (world rt))
    (world (@layerGcpWithEnvFallback E completions input ctx rt).2) !! key
    = None ->
  exists provider,
    (@layerGcpWithEnvFallback E completions input ctx rt).1
    = Success (providing provider)
    /\ match env w !! key with
       | Some value => load provider key w = Success value
       | None =>
           exists e, load provider key w = Failure e
                     /\ isMissingDataOnly e = true
       end.
Proof.
  rewrite layerGcpWithEnvFallback_run. cbn [fst snd]. intros Hplain _ Hk.
  eexists. split; [done|].
  rewrite orElse_fallback by (done || by apply keptAsIs_plain). simpl.
  destruct (env w !! key) as [value|]; [done|]. eauto.
Qed.

Lemma env_fallback_for_absent_secret_witness :
  exists provider,
    (@layerGcpWithEnvFallback Empty_set [] exampleInput
       exampleContext exampleRuntime).1 = Success (providing provider)
    /\ load provider "MISSING" exampleWorld = Success "from-env".
Proof.
  apply (@env_fallback_for_absent_secret Empty_set [] exampleInput
           exampleContext exampleRuntime "MISSING" exampleWorld).
  - reflexivity.
  - reflexivity.
  - vm_compute. reflexivity.
Defined.

(** C5, as the claim has it, fails.  The secret-derived map holds
    [ARR[0] = xyz] and has no key [ARR.[0]], and the environment has no
    variable [ARR.[0]] either; yet the lookup of [ARR.[0]] is not reported
    missing: the provider kept the entry of [ARR[0]] under that name and
    answers [xyz]. *)
Lemma absent_key_is_answered_by_an_indexed_entry :
  ~ absentSecretLeftToEnv [] indexedInput exampleContext
      (mkRuntime [] indexedWorld) "ARR.[0]" indexedWorld.
Proof.
  intros Hclaim.
  destruct Hclaim as (provider & Hrun & Hload); [vm_compute; reflexivity|].
  rewrite layerGcpWithEnvFallback_run in Hrun. cbn [fst] in Hrun.
  injection Hrun as <-.
  change (env indexedWorld !! "ARR.[0]") with (@None string) in Hload.
  destruct Hload as (e & Hload & _).
  vm_compute in Hload. discriminate Hload.
Qed.

(** C6, as the code has it.  The secrets-only layer provides a provider
    that, asked for a key without a closing bracket, answers a key of the
    aggregated map with exactly the map's value and reports any other key
    as missing, whatever the environment holds. *)
Theorem secrets_only_lookup {E} completions input (ctx : Context) rt :
  exists provider,
    (@layerGcp E completions input ctx rt).1 = Success (providing provider)
    /\ forall key w,
         hasChar "]" key = false ->
         match JsMap.contents (seedOf ctx (world rt))
                 (world (@layerGcp E completions input ctx rt).2) !! key with
         | Some value => load provider key w = Success value
         | None =>
             exists message,
               load provider key w = Failure (MissingData [key] message)
         end.
Proof.
  rewrite layerGcp_run. cbn [fst snd]. eexists. split; [done|].
  intros key w Hplain.
  change (JsMap.contents (seedOf ctx (world rt))
            (world (builtRuntime (projectId input) (secrets input) ctx rt)))
    with (secretMapOf (projectId input) (secrets input) ctx (world rt)).
  rewrite fromMap_load by (by apply keptAsIs_plain).
  destruct (secretMapOf (projectId input) (secrets input) ctx (world rt) !! key);
    eauto.
Qed.

Lemma secrets_only_lookup_witness :
  exists provider,
    (@layerGcp Empty_set [] exampleInput exampleContext exampleRuntime).1
    = Success (providing provider)
    /\ load provider "API_KEY" exampleWorld = Success "xyz"
    /\ exists message,
         load provider "MISSING" exampleWorld
         = Failure (MissingData ["MISSING"] message).
Proof.
  destruct (@secrets_only_lookup Empty_set [] exampleInput exampleContext
              exampleRuntime) as (provider & Hrun & Hload).
  exists provider. split; [exact Hrun|]. split.
  - apply (Hload "API_KEY" exampleWorld). reflexivity.
  - apply (Hload "MISSING" exampleWorld). reflexivity.
Defined.

(** C6, as the claim has it, fails.  The aggregated map holds
    [ARR[0] = xyz], yet the secrets-only provider reports [ARR[0]] as
    missing: it keeps that entry under the name [ARR.[0]]. *)
Lemma indexed_key_of_the_map_is_reported_missing :
  ~ secretsOnlyAnswersMap [] indexedInput exampleContext
      (mkRuntime [] indexedWorld) "ARR[0]" indexedWorld.
Proof.
  intros Hclaim.
  destruct (Hclaim "xyz") as (provider & Hrun & Hload);
    [vm_compute; reflexivity|].
  rewrite layerGcp_run in Hrun. cbn [fst] in Hrun.
  injection Hrun as <-. vm_compute in Hload. discriminate Hload.
Qed.

(** C8, as the code has it.  That the list is non-empty is a matter of the
    static type only; nothing checks it when the program runs.  Given an
    empty list, each of the three entry points succeeds, and the provider
    it provides is made from the seed map alone. *)
Theorem empty_list_excluded_by_type_only {E} (Json : Type)
    (fromJson : Json -> ConfigProvider) completions json projectId
    (ctx : Context) rt :
  isNonEmptyReadonlyArray (secrets (mkInput projectId [])) = false
  /\ (@layerGcp E completions (mkInput projectId []) ctx rt).1
     = Success (providing
         (ConfigProvider.fromMap (seedContents ctx (world rt))))
  /\ (@layerGcpWithEnvFallback E completions (mkInput projectId []) ctx rt).1
     = Success (providing
         (ConfigProvider.orElse (fun _ => ConfigProvider.fromEnv tt)
            (ConfigProvider.fromMap (seedContents ctx (world rt)))))
  /\ (@layerGcpWithJsonFallback Json fromJson E completions json
        (mkInput projectId []) ctx rt).1
     = Success (providing
         (ConfigProvider.orElse (fun _ => fromJson json)
            (ConfigProvider.fromMap (seedContents ctx (world rt))))).
Proof.
  rewrite layerGcp_run, layerGcpWithEnvFallback_run, layerGcpWithJsonFallback_run.
  simpl. by rewrite secretMapOf_nil.
Qed.

(** C8, as the claim has it, fails: with an empty list the secrets-only
    entry point does not fail with a configuration error, it succeeds. *)
Lemma empty_list_is_not_rejected :
  ~ emptyListRejected [] "demo" exampleContext exampleRuntime.
Proof.
  intros [e He]. rewrite layerGcp_run in He. discriminate He.
Qed.

(** C9. Whichever of the three layers is provided to a program, and however
    that program ends, one client is constructed, it is not closed while
    the layer is being built, and when the scope has ended its [close] has
    been called exactly once; the clients that existed before are left as
    they were.  The program itself holds no reference to a client. *)
Theorem client_closed_exactly_once {E A} (Json : Type)
    (fromJson : Json -> ConfigProvider) (layer : Layer E) completions json
    input (use : Eff E A) (ctx : Context) rt :
  layer = layerGcp completions input
  \/ layer = layerGcpWithEnvFallback completions input
  \/ layer = layerGcpWithJsonFallback Json fromJson completions json input ->
  (forall ctx' rt', clients (world (use ctx' rt').2) = clients (world rt')) ->
  clients (world (layer ctx (mkRuntime [] (world rt))).2) = clients (world rt) ++ [0]
  /\ clients (world (Layer.provideTo layer use ctx rt).2)
     = clients (world rt) ++ [1].
Proof.
  intros Hlayer Huse.
  assert (exists provided,
            layer ctx (mkRuntime [] (world rt))
            = (Success provided,
               builtRuntime (projectId input) (secrets input) ctx
                 (mkRuntime [] (world rt)))) as [provided Hbuilt].
  { destruct Hlayer as [-> | [-> | ->]]; eexists.
    - apply layerGcp_run.
    - apply layerGcpWithEnvFallback_run.
    - apply layerGcpWithJsonFallback_run. }
  split.
  - rewrite Hbuilt. unfold builtRuntime, builtWorld. cbn [snd world].
    by rewrite mergedWorld_clients.
  - unfold Layer.provideTo. rewrite Hbuilt.
    unfold builtRuntime, builtWorld. cbn [snd world scope].
    match goal with
    | |- context [use ?c ?r] =>
        pose proof (Huse c r) as Hframe;
        destruct (use c r) as [exit rt']
    end.
    cbn [snd world scope] in *. rewrite mergedWorld_clients in Hframe.
    unfold closeScope, SecretManagerServiceClient.close, setClients.
    cbn [foldl clients]. rewrite Hframe. cbn.
    rewrite alter_app_r_alt by lia. by rewrite Nat.sub_diag.
Qed.

Lemma client_closed_exactly_once_witness :
  (forall (ctx' : Context) rt',
     clients (world ((fun _ rt => (@Failure ConfigError unit
                        (MissingData ["PORT"] "Expected PORT to exist"), rt))
                       ctx' rt').2)
     = clients (world rt'))
  /\ clients (world (Layer.provideTo (layerGcp [] exampleInput)
                       (fun _ rt => (@Failure ConfigError unit
                          (MissingData ["PORT"] "Expected PORT to exist"), rt))
                       exampleContext exampleRuntime).2)
     = [1].
Proof.
  assert (forall (ctx' : Context) rt',
     clients (world ((fun _ rt => (@Failure ConfigError unit
                        (MissingData ["PORT"] "Expected PORT to exist"), rt))
                       ctx' rt').2)
     = clients (world rt')) as Huse by reflexivity.
  split; [exact Huse|].
  exact (proj2 (@client_closed_exactly_once ConfigError unit unit
                  (fun _ => ConfigProvider.fromMap ∅)
                  (layerGcp [] exampleInput) [] tt exampleInput _
                  exampleContext exampleRuntime
                  (or_introl eq_refl) Huse)).
Defined.

(** * Further properties of the code *)

(** ** Resource names *)

Lemma string_length_app (s1 s2 : string) :
  String.length (s1 +:+ s2) = String.length s1 + String.length s2.
Proof.
  induction s1 as [|a s1 IH]; [done|].
  change (S (String.length (s1 +:+ s2))
          = S (String.length s1) + String.length s2).
  by rewrite IH.
Qed.

Lemma string_app_inj_r (s1 s2 suffix : string) :
  s1 +:+ suffix = s2 +:+ suffix -> s1 = s2.
Proof.
  revert s2. induction s1 as [|a s1 IH]; intros [|b s2] Heq.
  - done.
  - apply (f_equal String.length) in Heq.
    rewrite !string_length_app in Heq. simpl in Heq. lia.
  - apply (f_equal String.length) in Heq.
    rewrite !string_length_app in Heq. simpl in Heq. lia.
  - change (String a (s1 +:+ suffix) = String b (s2 +:+ suffix)) in Heq.
    injection Heq as -> Heq. f_equal. by apply IH.
Qed.

Lemma string_app_assoc (s1 s2 s3 : string) :
  (s1 +:+ s2) +:+ s3 = s1 +:+ (s2 +:+ s3).
Proof.
  induction s1 as [|a s1 IH]; [done|].
  change (String a ((s1 +:+ s2) +:+ s3) = String a (s1 +:+ (s2 +:+ s3))).
  by rewrite IH.
Qed.

(** X1. What [getSecret] returns, case by case: a rejected request fails
    with [UnknownException], a response without payload data fails with
    [NoSuchElementException], a response with payload data succeeds with
    it; the runtime is left as it was and the answer does not depend on
    which client object the service holds. *)
Theorem getSecret_outcome projectId client name rt :
  getSecret (gcpSecretManagerOf projectId client) name rt
  = (match remote (world rt) (secretVersionName projectId name) with
     | Rejected => Failure UnknownException
     | Resolved None => Failure NoSuchElementException
     | Resolved (Some value) => Success value
     end, rt).
Proof.
  unfold gcpSecretManagerOf, getSecretWith; simpl.
  unfold Effect.flatMap, Effect.tryPromise,
    SecretManagerServiceClient.accessSecretVersion.
  by destruct (remote (world rt) (secretVersionName projectId name))
    as [|[value|]].
Qed.

(** X2. Within one project, two secret names are read from the same
    resource of the store only if they are the same name. *)
Theorem secretVersionName_inj projectId name1 name2 :
  secretVersionName projectId name1 = secretVersionName projectId name2
  <-> name1 = name2.
Proof.
  split; [|by intros ->]. unfold secretVersionName. intros Heq.
  apply (inj (String.app "projects/")) in Heq.
  apply (inj (String.app projectId)) in Heq.
  apply (inj (String.app "/secrets/")) in Heq.
  by apply string_app_inj_r in Heq.
Qed.

(** X3. The resource name is a plain concatenation; nothing is escaped or
    checked.  A secret name that contains [/secrets/] is therefore read
    from the same resource as a shorter name in the project whose id
    absorbs the front part. *)
Theorem secretVersionName_not_escaped projectId front back :
  secretVersionName projectId (front +:+ "/secrets/" +:+ back)
  = secretVersionName (projectId +:+ "/secrets/" +:+ front) back.
Proof.
  unfold secretVersionName. f_equal.
  by rewrite !string_app_assoc.
Qed.

(** ** What the aggregation leaves alone *)

Lemma withSeed_env ctx w : env (withSeed ctx w) = env w.
Proof.
  unfold withSeed. destruct (ctxSecretMap ctx); [done|].
  by destruct (defaultValueCache w).
Qed.

Lemma withSeed_maps_length ctx w :
  length (maps w) <= length (maps (withSeed ctx w)) <= length (maps w) + 1.
Proof.
  unfold withSeed. destruct (ctxSecretMap ctx); [lia|].
  destruct (defaultValueCache w); [lia|]. simpl. rewrite length_app. simpl. lia.
Qed.

(** X4. The aggregation registers no finalizer, leaves the environment,
    the clients and the store as they are, and creates at most one [Map]
    object (the default seed, when none is provided and none exists yet). *)
Theorem aggregation_frame {E} completions input projectId client
    (ctx : Context) rt :
  scope (@secretMapForConfigProvider E completions input
           (gcpSecretManagerOf projectId client) ctx rt).2 = scope rt
  /\ env (world (@secretMapForConfigProvider E completions input
                   (gcpSecretManagerOf projectId client) ctx rt).2)
     = env (world rt)
  /\ clients (world (@secretMapForConfigProvider E completions input
                       (gcpSecretManagerOf projectId client) ctx rt).2)
     = clients (world rt)
  /\ remote (world (@secretMapForConfigProvider E completions input
                      (gcpSecretManagerOf projectId client) ctx rt).2)
     = remote (world rt)
  /\ length (maps (world rt))
     <= length (maps (world (@secretMapForConfigProvider E completions input
                               (gcpSecretManagerOf projectId client) ctx rt).2))
     <= length (maps (world rt)) + 1.
Proof.
  rewrite secretMapForConfigProvider_run. unfold onWorld, mergedWorld; simpl.
  rewrite withSeed_env, withSeed_clients, withSeed_remote, length_alter.
  repeat split; try done; apply withSeed_maps_length.
Qed.

(** ** Where the entries of the map come from *)

Lemma fetchedFrom_lookup_Some projectId w inputs key value :
  fetchedFrom projectId w inputs !! key = Some value ->
  exists s, s ∈ inputs /\ nameInConfigOf s = key
            /\ secretResultOf projectId w (nameInSecretManagerOf s) = Some value.
Proof.
  unfold fetchedFrom. rewrite compact_lookup.
  destruct (HashMap.fromIterable (outcomeOf projectId w <$> inputs) !! key)
    as [[v|]|] eqn:Hk; [|done|done].
  simpl. intros [= ->].
  apply fromIterable_lookup_elem, list_elem_of_fmap in Hk as (s & Hs & Hin).
  injection Hs as Hname Hvalue. by exists s.
Qed.

(** the seed map after the merge, whether or not the reference is live *)
Lemma merged_contents_lookup projectId inputs ctx w key value :
  JsMap.contents (seedOf ctx w) (mergedWorld projectId inputs ctx w) !! key
    = Some value ->
  fetchedFrom projectId w inputs !! key = Some value
  \/ seedContents ctx w !! key = Some value.
Proof.
  unfold mergedWorld, seedContents, JsMap.contents; simpl.
  rewrite list_lookup_alter_eq.
  destruct (maps (withSeed ctx w) !! seedOf ctx w) as [seed|]; simpl; [|done].
  intros [Hk | [_ Hk]]%lookup_union_Some_raw; auto.
Qed.

(** X5. Nothing is invented: a value the map holds under a key after the
    aggregation is either the value the seed held under that key, or the
    payload the store gave for an input that is listed with that key. *)
Theorem aggregated_entries_come_from_seed_or_store {E} completions input
    projectId client (ctx : Context) rt key value :
  JsMap.contents (seedOf ctx (world rt))
    (world (@secretMapForConfigProvider E completions input
              (gcpSecretManagerOf projectId client) ctx rt).2) !! key
    = Some value ->
  seedContents ctx (world rt) !! key = Some value
  \/ exists s,
       s ∈ secrets input /\ nameInConfigOf s = key
       /\ remote (world rt)
            (secretVersionName projectId (nameInSecretManagerOf s))
          = Resolved (Some value).
Proof.
  rewrite secretMapForConfigProvider_run. unfold onWorld; simpl.
  intros [Hk | Hk]%merged_contents_lookup; [right|by left].
  apply fetchedFrom_lookup_Some in Hk as (s & Hin & Hname & Hres).
  exists s. split; [done|]. split; [done|].
  unfold secretResultOf in Hres.
  destruct (remote (world rt)
              (secretVersionName projectId (nameInSecretManagerOf s)))
    as [|[v|]]; congruence.
Qed.

Lemma aggregated_entries_come_from_seed_or_store_witness :
  seedContents exampleContext (world exampleRuntime) !! "API_KEY" = Some "xyz"
  \/ exists s,
       s ∈ secrets exampleInput /\ nameInConfigOf s = "API_KEY"
       /\ remote (world exampleRuntime)
            (secretVersionName "demo" (nameInSecretManagerOf s))
          = Resolved (Some "xyz").
Proof.
  apply (@aggregated_entries_come_from_seed_or_store Empty_set [] exampleInput
           "demo" 0 exampleContext exampleRuntime "API_KEY" "xyz").
  vm_compute. reflexivity.
Defined.

(** ** Order of the inputs *)

Lemma fetchedFrom_lookup_listed projectId w inputs s :
  NoDup (nameInConfigOf <$> inputs) ->
  s ∈ inputs ->
  fetchedFrom projectId w inputs !! nameInConfigOf s
  = secretResultOf projectId w (nameInSecretManagerOf s).
Proof.
  intros Hnd (before & after & ->)%list_elem_of_split.
  apply fetchedFrom_lookup_last.
  rewrite fmap_app, fmap_cons in Hnd.
  apply NoDup_app in Hnd as (_ & _ & Hnd). by apply NoDup_cons in Hnd as [? _].
Qed.

Lemma fetchedFrom_permutation projectId w inputs inputs' :
  NoDup (nameInConfigOf <$> inputs) ->
  inputs ≡ₚ inputs' ->
  fetchedFrom projectId w inputs = fetchedFrom projectId w inputs'.
Proof.
  intros Hnd Hperm. apply map_eq. intros key.
  assert (NoDup (nameInConfigOf <$> inputs')) as Hnd' by (by rewrite <- Hperm).
  destruct (decide (key ∈ nameInConfigOf <$> inputs)) as [Hin | Hout].
  - apply list_elem_of_fmap in Hin as (s & -> & Hin).
    rewrite (fetchedFrom_lookup_listed _ _ inputs) by done.
    rewrite (fetchedFrom_lookup_listed _ _ inputs'); [done|done|].
    by rewrite <- Hperm.
  - rewrite !fetchedFrom_lookup_None; [done| |].
    + intros s Hin <-. exfalso. apply Hout, list_elem_of_fmap.
      exists s. split; [done|]. by rewrite Hperm.
    + intros s Hin <-. exfalso. apply Hout, list_elem_of_fmap. by exists s.
Qed.

(** X6. When no two inputs share a configuration key, the order in which
    they are listed does not matter: listing them in another order gives
    the same result and the same world, under any completion orders. *)
Theorem aggregation_independent_of_listing_order {E} completions completions'
    input input' projectId client (ctx : Context) rt :
  NoDup (nameInConfigOf <$> secrets input) ->
  secrets input ≡ₚ secrets input' ->
  @secretMapForConfigProvider E completions input
    (gcpSecretManagerOf projectId client) ctx rt
  = @secretMapForConfigProvider E completions' input'
      (gcpSecretManagerOf projectId client) ctx rt.
Proof.
  intros Hnd Hperm. rewrite !secretMapForConfigProvider_run.
  unfold onWorld, mergedWorld.
  by rewrite (fetchedFrom_permutation _ _ _ _ Hnd Hperm).
Qed.

Lemma aggregation_independent_of_listing_order_witness :
  NoDup (nameInConfigOf <$> secrets exampleInput)
  /\ @secretMapForConfigProvider Empty_set [1] exampleInput
       (gcpSecretManagerOf "demo" 0) exampleContext exampleRuntime
     = @secretMapForConfigProvider Empty_set [0; 2]
         (mkInput "demo"
            [Renamed "api-key" "API_KEY"; BareName "MISSING"; BareName "PRESENT"])
         (gcpSecretManagerOf "demo" 0) exampleContext exampleRuntime.
Proof.
  assert (NoDup (nameInConfigOf <$> secrets exampleInput)) as Hnd.
  { simpl. repeat (apply NoDup_cons; split;
      [rewrite ?not_elem_of_cons; repeat split;
       solve [discriminate | apply not_elem_of_nil]|]).
    apply NoDup_nil_2. }
  split; [exact Hnd|].
  apply aggregation_independent_of_listing_order; [exact Hnd|].
  exact (Permutation_sym
           (Permutation_cons_append [BareName "MISSING"; BareName "PRESENT"]
              (Renamed "api-key" "API_KEY"))).
Defined.

(** ** Running the aggregation again *)

Lemma fetchedFrom_remote projectId w w' inputs :
  remote w = remote w' ->
  fetchedFrom projectId w inputs = fetchedFrom projectId w' inputs.
Proof.
  intros Heq. unfold fetchedFrom, outcomeOf, secretResultOf. by rewrite Heq.
Qed.

Lemma mergedWorld_remote projectId inputs ctx w :
  remote (mergedWorld projectId inputs ctx w) = remote w.
Proof. unfold mergedWorld; simpl. apply withSeed_remote. Qed.

(** once an aggregation has run, the seed reference is settled: a later
    [yield* SecretMap] returns the same reference and changes nothing *)
Lemma seed_settled projectId inputs ctx w :
  seedOf ctx (mergedWorld projectId inputs ctx w) = seedOf ctx w
  /\ withSeed ctx (mergedWorld projectId inputs ctx w)
     = mergedWorld projectId inputs ctx w.
Proof.
  unfold mergedWorld, seedOf, withSeed.
  destruct (ctxSecretMap ctx); [by split|].
  destruct (defaultValueCache w) eqn:Hcache; simpl; rewrite ?Hcache; by split.
Qed.

(** two aggregations in a row amount to one merge of both fetched maps *)
Lemma mergedWorld_twice pidA inputsA pidB inputsB ctx w :
  mergedWorld pidB inputsB ctx (mergedWorld pidA inputsA ctx w)
  = setMaps
      (alter (fun seed => fetchedFrom pidB w inputsB
                          ∪ (fetchedFrom pidA w inputsA ∪ seed))
         (seedOf ctx w))
      (withSeed ctx w).
Proof.
  destruct (seed_settled pidA inputsA ctx w) as [Hseed Hsettled].
  unfold mergedWorld at 1. rewrite Hseed, Hsettled.
  rewrite (fetchedFrom_remote pidB _ w) by apply mergedWorld_remote.
  unfold mergedWorld. rewrite setMaps_setMaps. unfold setMaps. f_equal.
  apply list_alter_alter_eq.
Qed.

(** X7. Running the aggregation a second time with the same inputs, right
    after the first, changes nothing: it returns the same reference and
    leaves the world that the first run produced. *)
Theorem aggregation_idempotent {E} completions completions' input projectId
    client (ctx : Context) rt :
  @secretMapForConfigProvider E completions' input
    (gcpSecretManagerOf projectId client) ctx
    (@secretMapForConfigProvider E completions input
       (gcpSecretManagerOf projectId client) ctx rt).2
  = @secretMapForConfigProvider E completions input
      (gcpSecretManagerOf projectId client) ctx rt.
Proof.
  rewrite !secretMapForConfigProvider_run. unfold onWorld; simpl.
  destruct (seed_settled projectId (secrets input) ctx (world rt)) as [-> _].
  rewrite mergedWorld_twice. unfold mergedWorld. do 2 f_equal.
  unfold setMaps. f_equal. apply list_alter_ext; [|done].
  intros seed _. by rewrite (assoc_L (∪)), (idemp_L (∪)).
Qed.

(** X8. The default seed outlives the aggregation that made it.  In a
    process where no seed is provided and no default exists yet, the first
    aggregation makes the default [Map]; a second aggregation, with other
    inputs, gets the very same object, and afterwards that object holds the
    entries of both runs, those of the second on top. *)
Theorem default_seed_shared_between_runs {E} completionsA completionsB
    inputA inputB pidA clientA pidB clientB (ctx : Context) rt :
  ctxSecretMap ctx = None ->
  defaultValueCache (world rt) = None ->
  (@secretMapForConfigProvider E completionsA inputA
     (gcpSecretManagerOf pidA clientA) ctx rt).1
  = Success (length (maps (world rt)))
  /\ (@secretMapForConfigProvider E completionsB inputB
        (gcpSecretManagerOf pidB clientB) ctx
        (@secretMapForConfigProvider E completionsA inputA
           (gcpSecretManagerOf pidA clientA) ctx rt).2).1
     = Success (length (maps (world rt)))
  /\ JsMap.contents (length (maps (world rt)))
       (world (@secretMapForConfigProvider E completionsB inputB
                 (gcpSecretManagerOf pidB clientB) ctx
                 (@secretMapForConfigProvider E completionsA inputA
                    (gcpSecretManagerOf pidA clientA) ctx rt).2).2)
     = fetchedFrom pidB (world rt) (secrets inputB)
       ∪ fetchedFrom pidA (world rt) (secrets inputA).
Proof.
  intros Hctx Hcache. rewrite !secretMapForConfigProvider_run.
  unfold onWorld; simpl.
  destruct (seed_settled pidA (secrets inputA) ctx (world rt)) as [-> _].
  assert (seedOf ctx (world rt) = length (maps (world rt))) as ->
    by (unfold seedOf; by rewrite Hctx, Hcache).
  split; [done|]. split; [done|].
  rewrite mergedWorld_twice.
  assert (seedOf ctx (world rt) = length (maps (world rt))) as ->
    by (unfold seedOf; by rewrite Hctx, Hcache).
  unfold withSeed, JsMap.contents. rewrite Hctx, Hcache. simpl.
  rewrite list_lookup_alter_eq, list_lookup_middle by done. simpl.
  by rewrite (right_id_L ∅ (∪)).
Qed.

Lemma default_seed_shared_between_runs_witness :
  ctxSecretMap Context.empty = None
  /\ defaultValueCache (world (mkRuntime [] freshWorld)) = None
  /\ JsMap.contents 0
       (world (@secretMapForConfigProvider Empty_set []
                 (mkInput "demo" [BareName "PRESENT"])
                 (gcpSecretManagerOf "demo" 1) Context.empty
                 (@secretMapForConfigProvider Empty_set []
                    (mkInput "demo" [Renamed "api-key" "API_KEY"])
                    (gcpSecretManagerOf "demo" 0) Context.empty
                    (mkRuntime [] freshWorld)).2).2)
     = fetchedFrom "demo" freshWorld [BareName "PRESENT"]
       ∪ fetchedFrom "demo" freshWorld [Renamed "api-key" "API_KEY"].
Proof.
  split; [reflexivity|]. split; [reflexivity|].
  exact (proj2 (proj2 (@default_seed_shared_between_runs Empty_set [] []
    (mkInput "demo" [Renamed "api-key" "API_KEY"])
    (mkInput "demo" [BareName "PRESENT"]) "demo" 0 "demo" 1
    Context.empty (mkRuntime [] freshWorld) eq_refl eq_refl))).
Defined.

(** ** Which secrets are read *)

Lemma fetchedFrom_listed projectId w w' inputs :
  (forall s, s ∈ inputs ->
     remote w' (secretVersionName projectId (nameInSecretManagerOf s))
     = remote w (secretVersionName projectId (nameInSecretManagerOf s))) ->
  fetchedFrom projectId w' inputs = fetchedFrom projectId w inputs.
Proof.
  intros Hsame. unfold fetchedFrom. do 2 f_equal.
  apply list_fmap_ext. intros _ s Hin%list_elem_of_lookup_2.
  unfold outcomeOf, secretResultOf. by rewrite Hsame.
Qed.

(** X9. Only the listed secrets are read.  Against another store that
    answers alike for the resource names of the listed inputs, whatever it
    holds elsewhere, the aggregation gives the same result and the same
    [Map] objects. *)
Theorem aggregation_reads_listed_secrets_only {E} completions input projectId
    client (ctx : Context) rt (store : string -> PromiseResult) :
  (forall s, s ∈ secrets input ->
     store (secretVersionName projectId (nameInSecretManagerOf s))
     = remote (world rt) (secretVersionName projectId (nameInSecretManagerOf s))) ->
  (@secretMapForConfigProvider E completions input
     (gcpSecretManagerOf projectId client) ctx (onWorld (setRemote store) rt)).1
  = (@secretMapForConfigProvider E completions input
       (gcpSecretManagerOf projectId client) ctx rt).1
  /\ maps (world (@secretMapForConfigProvider E completions input
                    (gcpSecretManagerOf projectId client) ctx
                    (onWorld (setRemote store) rt)).2)
     = maps (world (@secretMapForConfigProvider E completions input
                      (gcpSecretManagerOf projectId client) ctx rt).2).
Proof.
  intros Hsame. rewrite !secretMapForConfigProvider_run.
  unfold onWorld, mergedWorld; simpl. split; [done|].
  rewrite (fetchedFrom_listed projectId (world rt)) by exact Hsame.
  f_equal. unfold withSeed, setRemote; simpl.
  destruct (ctxSecretMap ctx); [done|].
  by destruct (defaultValueCache (world rt)).
Qed.

Lemma aggregation_reads_listed_secrets_only_witness :
  maps (world (@secretMapForConfigProvider Empty_set [] collidingInput
                 (gcpSecretManagerOf "demo" 0) exampleContext
                 (onWorld (setRemote (fun name =>
                    if decide (name = "projects/demo/secrets/api-key/versions/latest")
                    then Rejected else exampleStore name)) exampleRuntime)).2)
  = maps (world (@secretMapForConfigProvider Empty_set [] collidingInput
                   (gcpSecretManagerOf "demo" 0) exampleContext
                   exampleRuntime).2).
Proof.
  apply (@aggregation_reads_listed_secrets_only Empty_set [] collidingInput
           "demo" 0 exampleContext exampleRuntime).
  intros s Hin. apply list_elem_of_In in Hin.
  destruct Hin as [<- | [<- | []]]; reflexivity.
Defined.

(** ** The layers, end to end *)

Lemma merged_contents_nothing_fetched projectId inputs ctx w :
  fetchedFrom projectId w inputs = ∅ ->
  JsMap.contents (seedOf ctx w) (mergedWorld projectId inputs ctx w)
  = seedContents ctx w.
Proof.
  intros Hnone. unfold mergedWorld, seedContents. f_equal.
  apply setMaps_id, list_alter_id.
  intros seed. rewrite Hnone. apply (left_id_L ∅ (∪)).
Qed.

Lemma liveSeed_new_client ctx w :
  liveSeed ctx w -> liveSeed ctx (SecretManagerServiceClient.new w).2.
Proof.
  unfold liveSeed, seedOf, withSeed; simpl.
  destruct (ctxSecretMap ctx); [done|]. by destruct (defaultValueCache w).
Qed.

(** the map a layer makes its provider from: the entries fetched from the
    input's project on top of the seed *)
Lemma secretMapOf_contents projectId inputs ctx w :
  liveSeed ctx w ->
  secretMapOf projectId inputs ctx w
  = fetchedFrom projectId w inputs ∪ seedContents ctx w.
Proof.
  intros Hlive. unfold secretMapOf, builtWorld.
  rewrite <- (seedContents_new_client ctx w).
  rewrite <- (fetchedFrom_remote projectId
                (SecretManagerServiceClient.new w).2 w) by done.
  exact (merged_contents projectId inputs ctx
           (SecretManagerServiceClient.new w).2 (liveSeed_new_client _ _ Hlive)).
Qed.

(** X10. [layerGcp] does not fail when secrets cannot be retrieved.  Even
    when the store gives a payload for none of the listed secrets, the
    layer is built, and its provider answers exactly as a provider made
    from the seed map alone: a listed key the seed lacks is reported
    missing when it is looked up, not when the layer is built. *)
Theorem layerGcp_built_when_no_secret_is_retrieved {E} completions input
    (ctx : Context) rt :
  (forall s value, s ∈ secrets input ->
     remote (world rt)
       (secretVersionName (projectId input) (nameInSecretManagerOf s))
     <> Resolved (Some value)) ->
  exists provider,
    (@layerGcp E completions input ctx rt).1 = Success (providing provider)
    /\ forall key w,
         load provider key w
         = load (ConfigProvider.fromMap (seedContents ctx (world rt))) key w.
Proof.
  intros Hnone. rewrite layerGcp_run. eexists. split; [done|].
  intros key w. do 2 f_equal. unfold secretMapOf, builtWorld.
  rewrite <- (seedContents_new_client ctx (world rt)).
  refine (merged_contents_nothing_fetched (projectId input) (secrets input) ctx
            (SecretManagerServiceClient.new (world rt)).2 _).
  apply fetchedFrom_all_fail.
  intros s Hin. unfold secretResultOf. simpl.
  destruct (remote (world rt) (secretVersionName (projectId input)
              (nameInSecretManagerOf s))) as [|[value|]] eqn:Hs; try done.
  by destruct (Hnone s value Hin).
Qed.

Lemma layerGcp_built_when_no_secret_is_retrieved_witness :
  exists provider,
    (@layerGcp Empty_set [] (mkInput "demo" [BareName "MISSING"; BareName "no-payload"])
       exampleContext exampleRuntime).1 = Success (providing provider)
    /\ forall key w,
         load provider key w
         = load (ConfigProvider.fromMap
                   (seedContents exampleContext (world exampleRuntime))) key w.
Proof.
  apply (@layerGcp_built_when_no_secret_is_retrieved Empty_set []
           (mkInput "demo" [BareName "MISSING"; BareName "no-payload"])
           exampleContext exampleRuntime).
  intros s value Hin. apply list_elem_of_In in Hin.
  destruct Hin as [<- | [<- | []]]; discriminate.
Defined.

(** X11. Through the JSON-fallback layer, a key without a closing bracket
    that the secret-derived map does not hold is answered by the provider
    made from the document: its success is passed on as it is, and its
    error is joined, with [Or], to the map's own missing-data error. *)
Theorem json_fallback_for_absent_secret {E} (Json : Type)
    (fromJson : Json -> ConfigProvider) completions json input
    (ctx : Context) rt key w :
  hasChar "]" key = false ->
  JsMap.contents (seedOf ctx (world rt))
    (world (@layerGcpWithJsonFallback Json fromJson E completions json input
              ctx rt).2) !! key = None ->
  exists provider,
    (@layerGcpWithJsonFallback Json fromJson E completions json input ctx rt).1
    = Success (providing provider)
    /\ load provider key w
       = match load (fromJson json) key w with
         | Failure error2 =>
             Failure (Or (MissingData [key]
                            ("Expected " +:+ key +:+ " to exist in the provided map"))
                         error2)
         | other => other
         end.
Proof.
  rewrite layerGcpWithJsonFallback_run. cbn [fst snd]. intros Hplain Hk.
  eexists. split; [done|].
  by rewrite orElse_fallback by (done || by apply keptAsIs_plain).
Qed.

Lemma json_fallback_for_absent_secret_witness :
  exists provider,
    (@layerGcpWithJsonFallback (gmap string string) ConfigProvider.fromMap
       Empty_set [] {[ "MISSING" := "from-json" ]} exampleInput
       exampleContext exampleRuntime).1
    = Success (providing provider)
    /\ load provider "MISSING" exampleWorld = Success "from-json".
Proof.
  destruct (@json_fallback_for_absent_secret Empty_set (gmap string string)
              ConfigProvider.fromMap [] {[ "MISSING" := "from-json" ]}
              exampleInput exampleContext exampleRuntime "MISSING" exampleWorld)
    as (provider & Hrun & Hload);
    [reflexivity | vm_compute; reflexivity |].
  exists provider. split; [exact Hrun|]. rewrite Hload. reflexivity.
Defined.

(** X12. From the input to the lookup.  For each of the three layers: when
    the store holds a payload under
    [projects/{input.projectId}/secrets/{nameInSecretManager}/versions/latest]
    for an input that is the last one listed for its key, and that key has
    no closing bracket in it, the provider the layer provides answers the
    input's [nameInConfig] with the payload, whatever the seed, the
    environment and the fallback hold. *)
Theorem listed_secret_is_answered_through_the_layers {E} (Json : Type)
    (fromJson : Json -> ConfigProvider) (layer : Layer E) completions json
    input (ctx : Context) rt before s after value :
  layer = layerGcp completions input
  \/ layer = layerGcpWithEnvFallback completions input
  \/ layer = layerGcpWithJsonFallback Json fromJson completions json input ->
  liveSeed ctx (world rt) ->
  secrets input = before ++ s :: after ->
  nameInConfigOf s ∉ (nameInConfigOf <$> after) ->
  hasChar "]" (nameInConfigOf s) = false ->
  remote (world rt)
    (secretVersionName (projectId input) (nameInSecretManagerOf s))
    = Resolved (Some value) ->
  exists provider,
    (layer ctx rt).1 = Success (providing provider)
    /\ forall w, load provider (nameInConfigOf s) w = Success value.
Proof.
  intros Hlayer Hlive Hsplit Hlast Hplain Hstore.
  assert (secretMapOf (projectId input) (secrets input) ctx (world rt)
            !! nameInConfigOf s = Some value) as Hk.
  { rewrite secretMapOf_contents by done. apply lookup_union_Some_l.
    rewrite Hsplit, fetchedFrom_lookup_last by done.
    by apply secretResultOf_resolved. }
  pose proof (keptAsIs_plain
    (secretMapOf (projectId input) (secrets input) ctx (world rt)) _ Hplain)
    as Hkept.
  destruct Hlayer as [-> | [-> | ->]].
  - rewrite layerGcp_run. eexists. split; [done|]. intros w.
    by rewrite fromMap_load, Hk.
  - rewrite layerGcpWithEnvFallback_run. eexists. split; [done|]. intros w.
    by apply orElse_primary.
  - rewrite layerGcpWithJsonFallback_run. eexists. split; [done|]. intros w.
    by apply orElse_primary.
Qed.

Lemma listed_secret_is_answered_through_the_layers_witness :
  liveSeed exampleContext (world exampleRuntime)
  /\ exists provider,
       (@layerGcp Empty_set [] exampleInput exampleContext exampleRuntime).1
       = Success (providing provider)
       /\ forall w, load provider "API_KEY" w = Success "xyz".
Proof.
  assert (liveSeed exampleContext (world exampleRuntime)) as Hlive
    by (vm_compute; lia).
  split; [exact Hlive|].
  refine (@listed_secret_is_answered_through_the_layers Empty_set unit
            (fun _ => ConfigProvider.fromMap ∅) (layerGcp [] exampleInput)
            [] tt exampleInput exampleContext exampleRuntime
            [BareName "MISSING"; BareName "PRESENT"]
            (Renamed "api-key" "API_KEY") [] "xyz"
            (or_introl eq_refl) Hlive eq_refl _ eq_refl eq_refl).
  simpl. apply not_elem_of_nil.
Defined.

(** ** Other services behind the tag *)

Section AnyService.
Context {E : Type}.
Variable svc : GcpSecretManagerShape.
(** [getSecret] leaves the runtime as it found it *)
Hypothesis getSecret_keeps_runtime :
  forall name rt0, (getSecret svc name rt0).2 = rt0.

(** what [Effect.option(getSecret(name))] yields for this service *)
Lemma option_getSecret name (ctx : Context) rt0 :
  (forall d, (getSecret svc name rt0).1 <> Die d) ->
  @Effect.option GetSecretError E _ (fun _ => getSecret svc name) ctx rt0
  = (Success (match (getSecret svc name rt0).1 with
              | Success value => Some value
              | _ => None
              end), rt0).
Proof.
  intros Hnodie. unfold Effect.option.
  pose proof (getSecret_keeps_runtime name rt0) as Hrt.
  destruct (getSecret svc name rt0) as [[value|e|d] rt1]; simpl in *;
    subst; try done. by destruct (Hnodie d).
Qed.

Lemma fetchOne_dies secretInput (ctx : Context) rt0 d :
  (getSecret svc (nameInSecretManagerOf secretInput) rt0).1 = Die d ->
  @fetchOne E svc secretInput ctx rt0 = (Die d, rt0).
Proof.
  intros Hdie. unfold fetchOne, Effect.flatMap, Effect.option.
  pose proof (getSecret_keeps_runtime (nameInSecretManagerOf secretInput) rt0)
    as Hrt.
  destruct (getSecret svc (nameInSecretManagerOf secretInput) rt0)
    as [exit rt1]; simpl in *. by subst.
Qed.

Lemma fetchOne_succeeds_or_dies secretInput (ctx : Context) rt0 :
  (exists outcome, @fetchOne E svc secretInput ctx rt0 = (Success outcome, rt0))
  \/ (exists d, @fetchOne E svc secretInput ctx rt0 = (Die d, rt0)).
Proof.
  unfold fetchOne, Effect.flatMap, Effect.option, Effect.succeed.
  pose proof (getSecret_keeps_runtime (nameInSecretManagerOf secretInput) rt0)
    as Hrt.
  destruct (getSecret svc (nameInSecretManagerOf secretInput) rt0)
    as [[value|e|d] rt1]; simpl in *; subst; eauto.
Qed.

Lemma settleInOrder_dies (ctx : Context) rt0 pending array i s d :
  (i, s) ∈ pending ->
  @fetchOne E svc s ctx rt0 = (Die d, rt0) ->
  exists d',
    Effect.settleInOrder (fun secretInput _ => @fetchOne E svc secretInput)
      pending array ctx rt0 = (Die d', rt0).
Proof.
  intros Hin Hdie. revert array.
  induction pending as [|[j a] rest IH]; intros array;
    [by apply elem_of_nil in Hin|].
  simpl. destruct (fetchOne_succeeds_or_dies a ctx rt0)
    as [[outcome Hok] | [d' Hd']].
  - rewrite Hok. apply IH.
    apply elem_of_cons in Hin as [[= -> ->] | Hin]; [congruence|done].
  - rewrite Hd'. eauto.
Qed.

Lemma settle_dies (ctx : Context) rt0 completions pending array i s d :
  (i, s) ∈ pending ->
  @fetchOne E svc s ctx rt0 = (Die d, rt0) ->
  exists d',
    Effect.settle (fun secretInput _ => @fetchOne E svc secretInput)
      completions pending array ctx rt0 = (Die d', rt0).
Proof.
  intros Hin Hdie. revert pending array Hin.
  induction completions as [|c later IH]; intros pending array Hin.
  - by eapply settleInOrder_dies.
  - simpl. destruct (pending !! (c mod length pending)) as [[j a]|] eqn:Hj.
    + destruct (fetchOne_succeeds_or_dies a ctx rt0)
        as [[outcome Hok] | [d' Hd']].
      * rewrite Hok. apply IH.
        rewrite (delete_Permutation _ _ _ Hj) in Hin.
        apply elem_of_cons in Hin as [[= -> ->] | Hin]; [congruence|done].
      * rewrite Hd'. eauto.
    + destruct pending as [|p rest]; [by apply elem_of_nil in Hin|].
      apply lookup_ge_None in Hj. simpl in Hj.
      pose proof (Nat.mod_upper_bound c (S (length rest))). lia.
Qed.

(** X13. The tolerance does not depend on the real service.  With any
    service whose [getSecret] leaves the runtime alone and raises no
    defect, as a stand-in used in a test would, the aggregation succeeds
    with the seed reference, whichever calls fail and in whatever order the
    fetches complete. *)
Theorem aggregation_succeeds_with_any_service completions input
    (ctx : Context) rt :
  (forall name rt0 d, (getSecret svc name rt0).1 <> Die d) ->
  exists rt',
    @secretMapForConfigProvider E completions input svc ctx rt
    = (Success (seedOf ctx (world rt)), rt').
Proof.
  intros Hnodie. unfold secretMapForConfigProvider, Effect.mapSync, Effect.map.
  unfold Effect.flatMap at 1. rewrite yieldReference_run.
  unfold Effect.flatMap.
  rewrite (forEach_reads _
    (fun s => (nameInConfigOf s,
               match (getSecret svc (nameInSecretManagerOf s)
                        (onWorld (withSeed ctx) rt)).1 with
               | Success value => Some value
               | _ => None
               end))).
  - unfold Effect.succeed, Effect.sync. rewrite reduce_setInto. eauto.
  - intros s _. unfold fetchOne, Effect.flatMap.
    rewrite option_getSecret by apply Hnodie. done.
Qed.

(** X14. A defect is not a fetch failure.  If [getSecret] throws for one
    of the listed inputs, the aggregation dies with a defect, whatever the
    other fetches give and in whatever order they complete, and nothing has
    been merged into the seed map. *)
Theorem defect_in_one_fetch_aborts_aggregation completions input
    (ctx : Context) rt s :
  s ∈ secrets input ->
  (forall rt0, exists d,
     (getSecret svc (nameInSecretManagerOf s) rt0).1 = Die d) ->
  exists d,
    @secretMapForConfigProvider E completions input svc ctx rt
    = (Die d, onWorld (withSeed ctx) rt).
Proof.
  intros Hin Hthrows.
  destruct (Hthrows (onWorld (withSeed ctx) rt)) as [d Hd].
  apply list_elem_of_lookup in Hin as [i Hi].
  destruct (settle_dies ctx (onWorld (withSeed ctx) rt) completions
              (imap (fun i a => (i, a)) (secrets input)) ∅ i s d)
    as [d' Hdies].
  { apply list_elem_of_lookup. exists i. by rewrite list_lookup_imap, Hi. }
  { by apply fetchOne_dies. }
  exists d'. unfold secretMapForConfigProvider, Effect.mapSync, Effect.map.
  unfold Effect.flatMap at 1. rewrite yieldReference_run.
  unfold Effect.flatMap, Effect.forEach, Effect.map, Effect.flatMap.
  by rewrite Hdies.
Qed.
End AnyService.

Lemma aggregation_succeeds_with_any_service_witness :
  exists rt',
    @secretMapForConfigProvider Empty_set [1] exampleInput stubService
      exampleContext exampleRuntime
    = (Success 0, rt').
Proof.
  apply (@aggregation_succeeds_with_any_service Empty_set stubService).
  - reflexivity.
  - intros name rt0 d. simpl. by destruct (decide (name = "PRESENT")).
Defined.

Lemma defect_in_one_fetch_aborts_aggregation_witness :
  exists d,
    @secretMapForConfigProvider Empty_set [0]
      (mkInput "demo" [BareName "PRESENT"; BareName "BROKEN"]) throwingService
      exampleContext exampleRuntime
    = (Die d, onWorld (withSeed exampleContext) exampleRuntime).
Proof.
  apply (@defect_in_one_fetch_aborts_aggregation Empty_set throwingService
           (fun _ _ => eq_refl) [0]
           (mkInput "demo" [BareName "PRESENT"; BareName "BROKEN"])
           exampleContext exampleRuntime (BareName "BROKEN")).
  - simpl. apply list_elem_of_In. right. left. reflexivity.
  - intros rt0. exists "TypeError". reflexivity.
Defined.

(** ** Layers inside layers *)

Lemma three_layers_built {E} (Json : Type) (fromJson : Json -> ConfigProvider)
    (layer : Layer E) completions json input (ctx : Context) rt0 :
  layer = layerGcp completions input
  \/ layer = layerGcpWithEnvFallback completions input
  \/ layer = layerGcpWithJsonFallback Json fromJson completions json input ->
  exists provided,
    layer ctx rt0
    = (Success provided,
       builtRuntime (projectId input) (secrets input) ctx rt0).
Proof.
  intros [-> | [-> | ->]]; eexists.
  - apply layerGcp_run.
  - apply layerGcpWithEnvFallback_run.
  - apply layerGcpWithJsonFallback_run.
Qed.

Lemma builtWorld_clients projectId inputs ctx w :
  clients (builtWorld projectId inputs ctx w) = clients w ++ [0].
Proof. unfold builtWorld. by rewrite mergedWorld_clients. Qed.

Lemma close_last_client (cs : list nat) n :
  alter S (length cs) (cs ++ [n]) = cs ++ [S n].
Proof. rewrite alter_app_r_alt by lia. by rewrite Nat.sub_diag. Qed.

(** what providing a built layer does to the clients, in terms of what the
    program under it does to them *)
Lemma provideTo_clients {E A} (layer : Layer E) (use : Eff E A) projectId
    inputs provided (ctx : Context) rt :
  layer ctx (mkRuntime [] (world rt))
  = (Success provided,
     builtRuntime projectId inputs ctx (mkRuntime [] (world rt))) ->
  clients (world (Layer.provideTo layer use ctx rt).2)
  = alter S (length (clients (world rt)))
      (clients (world (use (Context.merge ctx provided)
                         (mkRuntime (scope rt)
                            (builtWorld projectId inputs ctx (world rt)))).2)).
Proof.
  intros Hbuilt. unfold Layer.provideTo. rewrite Hbuilt.
  unfold builtRuntime. cbn [snd world scope].
  match goal with
  | |- context [use ?c ?r] => destruct (use c r) as [exit rt']
  end.
  done.
Qed.

(** X15. Layers can be provided inside one another.  When one of the three
    layers is provided to a program that itself runs under another of them,
    two clients are constructed, one for each layer, and when the outer
    scope has ended each has been closed exactly once; the clients that
    existed before are left as they were. *)
Theorem nested_layers_close_their_own_clients {E A} (Json : Type)
    (fromJson : Json -> ConfigProvider) (outer inner : Layer E)
    completions json input completions' json' input' (use : Eff E A)
    (ctx : Context) rt :
  outer = layerGcp completions input
  \/ outer = layerGcpWithEnvFallback completions input
  \/ outer = layerGcpWithJsonFallback Json fromJson completions json input ->
  inner = layerGcp completions' input'
  \/ inner = layerGcpWithEnvFallback completions' input'
  \/ inner = layerGcpWithJsonFallback Json fromJson completions' json' input' ->
  (forall ctx' rt', clients (world (use ctx' rt').2) = clients (world rt')) ->
  clients (world (Layer.provideTo outer (Layer.provideTo inner use) ctx rt).2)
  = clients (world rt) ++ [1; 1].
Proof.
  intros Houter Hinner Huse.
  destruct (three_layers_built Json fromJson outer completions json input ctx
              (mkRuntime [] (world rt)) Houter) as [provided Hbuilt].
  rewrite (provideTo_clients _ _ _ _ _ _ _ Hbuilt).
  match goal with
  | |- context [Layer.provideTo inner use ?c ?r] =>
      destruct (three_layers_built Json fromJson inner completions' json'
                  input' c (mkRuntime [] (world r)) Hinner)
        as [provided' Hbuilt'];
      rewrite (provideTo_clients _ _ _ _ _ c r Hbuilt')
  end.
  rewrite Huse. cbn [world]. rewrite !builtWorld_clients.
  rewrite close_last_client.
  rewrite (alter_app_l _ (clients (world rt) ++ [0]))
    by (rewrite length_app; simpl; lia).
  rewrite close_last_client. by rewrite <- (assoc_L (++)).
Qed.

Lemma nested_layers_close_their_own_clients_witness :
  clients (world (Layer.provideTo (layerGcpWithEnvFallback [] exampleInput)
                    (Layer.provideTo (layerGcp [1] collidingInput)
                       (fun _ rt => (@Die ConfigError unit "boom", rt)))
                    exampleContext exampleRuntime).2)
  = [1; 1].
Proof.
  exact (@nested_layers_close_their_own_clients ConfigError unit unit
           (fun _ => ConfigProvider.fromMap ∅)
           (layerGcpWithEnvFallback [] exampleInput)
           (layerGcp [1] collidingInput)
           [] tt exampleInput [1] tt collidingInput
           (fun _ rt => (Die "boom", rt)) exampleContext exampleRuntime
           (or_intror (or_introl eq_refl)) (or_introl eq_refl)
           (fun _ _ => eq_refl)).
Defined.

(** X16. The service stays inside the layer.  What each of the three
    layers provides is the config provider and nothing else: neither the
    [GcpSecretManager] service, nor the project configuration, nor a
    [SecretMap] is handed to the program that runs under the layer. *)
Theorem layers_provide_the_config_provider_only {E} (Json : Type)
    (fromJson : Json -> ConfigProvider) (layer : Layer E) completions json
    input (ctx : Context) rt :
  layer = layerGcp completions input
  \/ layer = layerGcpWithEnvFallback completions input
  \/ layer = layerGcpWithJsonFallback Json fromJson completions json input ->
  exists provided,
    (layer ctx rt).1 = Success provided
    /\ is_Some (ctxConfigProvider provided)
    /\ ctxGcpSecretManager provided = None
    /\ ctxGcpSecretManagerConfig provided = None
    /\ ctxSecretMap provided = None.
Proof.
  intros [-> | [-> | ->]]; eexists.
  - rewrite layerGcp_run. by repeat split.
  - rewrite layerGcpWithEnvFallback_run. by repeat split.
  - rewrite layerGcpWithJsonFallback_run. by repeat split.
Qed.

Lemma layers_provide_the_config_provider_only_witness :
  exists provided,
    (@layerGcpWithEnvFallback Empty_set [] exampleInput
       exampleContext exampleRuntime).1 = Success provided
    /\ is_Some (ctxConfigProvider provided)
    /\ ctxGcpSecretManager provided = None
    /\ ctxGcpSecretManagerConfig provided = None
    /\ ctxSecretMap provided = None.
Proof.
  exact (@layers_provide_the_config_provider_only Empty_set unit
           (fun _ => ConfigProvider.fromMap ∅)
           (layerGcpWithEnvFallback [] exampleInput) [] tt exampleInput
           exampleContext exampleRuntime (or_intror (or_introl eq_refl))).
Defined.
